(** * The analysis cache of polymer-analyzer and its invalidation algorithm

  A shallow embedding of [src/core/analysis-cache.ts].  The class
  [AnalysisCache] owns four [AsyncWorkCache] objects, two JavaScript [Map]
  objects and a reference to a [DependencyGraph].  [invalidate] forks the
  receiver and then mutates the objects of the fork.  The objects live in an
  explicit store, snapshots hold locations, and every method is a computation
  in a state monad over that store, so that copying and aliasing are visible.

  Only [analysis-cache.ts] is available.  The classes it imports,
  [AsyncWorkCache] ([./async-work-cache]) and [DependencyGraph]
  ([./dependency-graph]), are modelled from the specification; each such
  definition says so.

  The class is embedded twice.  [AnalysisCache] holds the dependency graph
  as a value, which is all that the statements about the returned snapshot
  need.  [AnalysisCacheObject] holds it by reference, as an object of a
  store of graphs, to follow the receiver and its graph through a call of
  [invalidate]; [invalidate_snapshotOf] relates the two. *)

From stdpp Require Import base option list gmap sets strings relations.

Open Scope string_scope.
Open Scope nat_scope.

(** Locations of heap-allocated objects. *)
Abbreviation loc := nat.

(** ** A small state monad *)

Definition State (S A : Type) : Type := S → A * S.

#[global] Instance state_ret {S} : MRet (State S) := λ A (a : A) s, (a, s).

#[global] Instance state_bind {S} : MBind (State S) :=
λ A B (f : A → State S B) (m : State S A) s, let (a, s') := m s in f a s'.

(** Run a computation over a component of a larger state. *)
Definition zoom {S T A} (get : T → S) (put : S → T → T) (m : State S A) : State T A :=
λ t, let (a, s') := m (get t) in (a, put s' t).

(** [for (const x of l) body(x)]. *)
Fixpoint forEach {S A} (l : list A) (body : A → State S unit) : State S unit :=
match l with
| [] => mret tt
| x :: l' => body x;; forEach l' body
end.

Definition exec {S A} (m : State S A) (s : S) : S := (m s).2.
Definition eval {S A} (m : State S A) (s : S) : A := (m s).1.

(** ** JavaScript [Map] objects with string keys

  A store of [Map<string, A>] objects.  Every [Map] is a mutable object,
  reached through its location.  The iteration order of a [Map] is
  insertion order; the only iteration in [analysis-cache.ts] copies every
  entry into another keyed container, where the order cannot be observed,
  so the contents are kept as a finite map. *)
Module JsMap.
Section JsMap.
Context {A : Type}.

Record Store : Type := mkStore {
  objects : gmap loc (gmap string A);
  nextLoc : loc
}.

Definition emptyStore : Store := mkStore ∅ 0.

Definition contentsOf (s : Store) (l : loc) : gmap string A :=
  default ∅ (objects s !! l).

Definition alloc (m : gmap string A) : State Store loc :=
  λ s, (nextLoc s, mkStore (<[nextLoc s := m]> (objects s)) (S (nextLoc s))).

Definition update (l : loc) (f : gmap string A → gmap string A) : State Store unit :=
  λ s, (tt, mkStore (<[l := f (contentsOf s l)]> (objects s)) (nextLoc s)).

(** [new Map(from)]: a fresh object holding a copy of the entries of [from],
    or no entry when [from] is [undefined]. *)
Definition new (from : option loc) : State Store loc :=
  λ s, alloc (match from with Some l => contentsOf s l | None => ∅ end) s.

Definition get (l : loc) (k : string) : State Store (option A) :=
  λ s, (contentsOf s l !! k, s).

Definition set (l : loc) (k : string) (v : A) : State Store unit :=
  update l (<[k := v]>).

Definition delete (l : loc) (k : string) : State Store unit :=
  update l (base.delete k).

Definition clear (l : loc) : State Store unit :=
  update l (λ _, ∅).

(** The entries visited by [for (const keyValue of map)]. *)
Definition entries (l : loc) : State Store (list (string * A)) :=
  λ s, (map_to_list (contentsOf s l), s).
End JsMap.
Arguments Store : clear implicits.
End JsMap.

(** ** The memoizing work cache ([./async-work-cache], not available)

  An [AsyncWorkCache<string, V>] wraps one [Map] from keys to promises.  A
  promise is either the one returned by an invocation of a [compute]
  function, identified by the index of that invocation in the log of the
  world, or [Promise.resolve(v)] as installed by [set].  The log records
  every invocation of a supplied [compute] function together with its
  outcome once it has settled; a promise settles at most once. *)
Module AsyncWorkCache.
Section AsyncWorkCache.
Context {V : Type}.

Inductive Outcome : Type :=
| Success (v : V)
| Failure (reason : string).

Inductive Promise : Type :=
| Computing (pid : nat)
| Resolved (v : V).

Record Invocation : Type := mkInvocation {
  inv_cache : loc;             (* the cache that invoked [compute] *)
  inv_key : string;            (* the key it was invoked for *)
  inv_compute : nat;           (* which supplied function was invoked *)
  inv_outcome : option Outcome (* [None] while in flight *)
}.

Record World : Type := mkWorld {
  maps : JsMap.Store Promise;
  invocations : list Invocation
}.

Definition emptyWorld : World := mkWorld JsMap.emptyStore [].

Definition onMaps {A} (m : State (JsMap.Store Promise) A) : State World A :=
  zoom maps (λ s w, mkWorld s (invocations w)) m.

Definition entriesOf (w : World) (c : loc) : gmap string Promise :=
  JsMap.contentsOf (maps w) c.

(** The eventual outcome of a promise as far as it is known in [w]. *)
Definition outcomeOf (w : World) (p : Promise) : option Outcome :=
  match p with
  | Resolved v => Some (Success v)
  | Computing pid => i ← invocations w !! pid; inv_outcome i
  end.

(** Modelled from the spec: [fork(from?)], the constructor
    [new AsyncWorkCache(from)].  The new cache holds a point-in-time copy of
    the entries of [from], or no entry; the promises are shared. *)
Definition new (from : option loc) : State World loc :=
  onMaps (JsMap.new from).

(** Modelled from the spec: [getOrCompute(key, compute)].  An existing entry
    is returned as it is and [compute] is not invoked; otherwise [compute]
    is invoked, and the promise of its result is registered before anything
    else can run. *)
Definition getOrCompute (c : loc) (key : string) (compute : nat) : State World Promise :=
  λ w, match entriesOf w c !! key with
       | Some p => (p, w)
       | None =>
           let p := Computing (length (invocations w)) in
           (p, mkWorld (exec (JsMap.set c key p) (maps w))
                       (invocations w ++ [mkInvocation c key compute None]))
       end.

(** Modelled from the spec: [set(key, value)] installs a resolved entry,
    replacing whatever was there. *)
Definition set (c : loc) (key : string) (value : V) : State World unit :=
  onMaps (JsMap.set c key (Resolved value)).

(** Modelled from the spec: [delete(key)] removes the entry. *)
Definition delete (c : loc) (key : string) : State World unit :=
  onMaps (JsMap.delete c key).

(** Modelled from the spec: [clear()] removes all entries. *)
Definition clear (c : loc) : State World unit :=
  onMaps (JsMap.clear c).

(** Modelled from the spec: a started computation runs to completion,
    success or failure, and that outcome is cached.  The scheduler settles
    the in-flight computation [pid] with outcome [o]; a computation that has
    settled keeps its outcome. *)
Definition settle (pid : nat) (o : Outcome) : State World unit :=
  λ w, match invocations w !! pid with
       | Some (mkInvocation c k f None) =>
           (tt, mkWorld (maps w) (<[pid := mkInvocation c k f (Some o)]> (invocations w)))
       | _ => (tt, w)
       end.

(** How often a [compute] function was invoked by cache [c] for [key]. *)
Definition invokedFor (c : loc) (key : string) (i : Invocation) : bool :=
  bool_decide (inv_cache i = c ∧ inv_key i = key).

Definition computeCount (w : World) (c : loc) (key : string) : nat :=
  length (filter (λ i, invokedFor c key i = true) (invocations w)).

(** The operations of the cache and of the scheduler, for traces. *)
Inductive Op : Type :=
| GetOrCompute (c : loc) (key : string) (compute : nat)
| Set' (c : loc) (key : string) (value : V)
| Delete (c : loc) (key : string)
| Clear (c : loc)
| Fork (from : option loc)
| Settle (pid : nat) (o : Outcome).

(** One operation; [getOrCompute] hands a promise to its caller. *)
Definition step (op : Op) : State World (option Promise) :=
  match op with
  | GetOrCompute c k f => p ← getOrCompute c k f; mret (Some p)
  | Set' c k v => set c k v;; mret None
  | Delete c k => delete c k;; mret None
  | Clear c => clear c;; mret None
  | Fork from => new from;; mret None
  | Settle pid o => settle pid o;; mret None
  end.

Fixpoint run (ops : list Op) : State World (list (option Promise)) :=
  match ops with
  | [] => mret []
  | op :: ops' => r ← step op; rs ← run ops'; mret (r :: rs)
  end.

(** [op] removes or replaces the entry of [key] in cache [c]. *)
Definition evicts (c : loc) (key : string) (op : Op) : bool :=
  match op with
  | Delete c' k => bool_decide (c' = c ∧ k = key)
  | Clear c' => bool_decide (c' = c)
  | _ => false
  end.

Definition replaces (c : loc) (key : string) (op : Op) : bool :=
  match op with
  | Set' c' k _ => bool_decide (c' = c ∧ k = key)
  | _ => false
  end.

(** The cache object [c] exists in [w]. *)
Definition allocatedCache (w : World) (c : loc) : Prop := c < JsMap.nextLoc (maps w).

(** No operation of the trace is [delete(key)] or [clear()] on [c]. *)
Definition keeps (c : loc) (key : string) (ops : list Op) : bool :=
  forallb (λ op, negb (evicts c key op)) ops.

(** No operation of the trace is [delete(key)], [clear()] or [set(key, _)]
    on [c]. *)
Definition keepsEntry (c : loc) (key : string) (ops : list Op) : bool :=
  forallb (λ op, negb (evicts c key op) && negb (replaces c key op)) ops.

(** No operation of the trace is [delete(key)] on [c]. *)
Definition neverDeletes (c : loc) (key : string) (ops : list Op) : bool :=
  forallb (λ op, match op with
                 | Delete c' k => negb (bool_decide (c' = c ∧ k = key))
                 | _ => true
                 end) ops.
End AsyncWorkCache.
Arguments Outcome : clear implicits.
Arguments Promise : clear implicits.
Arguments Invocation : clear implicits.
Arguments World : clear implicits.
Arguments Op : clear implicits.
End AsyncWorkCache.

(** ** The dependency graph ([./dependency-graph], not available)

  The graph is a finite set of edges between document identities; an edge
  [(a, b)] says that the scan of [a] declared a dependency on [b].  It is a
  value: every operation returns a graph and leaves its argument alone. *)
Module DependencyGraph.
Abbreviation t := (gset (string * string)).

Definition empty : t := ∅.

(** [d] is a direct dependant of [x]: there is a reverse edge from [x]
    to [d]. *)
Definition importedBy (g : t) (x d : string) : Prop := (d, x) ∈ g.

(** Modelled from the spec: [setDependencies(id, dependencyIds)] replaces
    the outgoing edges of [id]. *)
Definition setDependencies (id : string) (dependencyIds : gset string) (g : t) : t :=
  filter (λ e : string * string, e.1 ≠ id) g ∪ set_map (λ d, (id, d)) dependencyIds.

(** The ids with an edge into one of [ids]. *)
Definition directDependants (g : t) (ids : gset string) : gset string :=
  set_map fst (filter (λ e : string * string, e.2 ∈ ids) g).

Definition sources (g : t) : gset string := set_map fst g.

(** Add direct dependants until nothing new turns up.  Every id that is
    ever added is the source of an edge, so [size (sources g)] rounds
    suffice. *)
Fixpoint closeUnder (fuel : nat) (g : t) (seen : gset string) : gset string :=
  match fuel with
  | 0 => seen
  | S n =>
      let next := seen ∪ directDependants g seen in
      if decide (next ⊆ seen) then seen else closeUnder n g next
  end.

(** Modelled from the spec: [getAllDependants(id)] (called
    [getAllDependantsOf] in [analysis-cache.ts]) returns the set of all ids
    reachable by following reverse edges transitively from [id], excluding
    [id] itself. *)
Definition getAllDependantsOf (g : t) (id : string) : gset string :=
  closeUnder (size (sources g)) g (directDependants g {[id]}) ∖ {[id]}.

(** Modelled from the spec: [invalidatePaths(ids)] computes the union of
    [ids] and every transitive dependant of every id in [ids], and returns a
    new graph without the edges that touch an id of that union. *)
Definition invalidatePaths (g : t) (ids : list string) : t :=
  let stale : gset string :=
    list_to_set ids ∪ ⋃ (getAllDependantsOf g <$> ids) in
  filter (λ e : string * string, (e.1 ∉ stale) ∧ (e.2 ∉ stale)) g.
End DependencyGraph.

(** ** The analysis cache ([src/core/analysis-cache.ts]) *)
Module AnalysisCache.
Section AnalysisCache.
Context {ParsedDocument ScannedDocument Document : Type}.

(** The values the four work caches resolve to. *)
Inductive Payload : Type :=
| ParsedP (d : ParsedDocument)
| ScannedP (d : ScannedDocument)
| AnalyzedP (d : Document).

Abbreviation Promise := (AsyncWorkCache.Promise Payload).

(** The store: the work caches with their promises, and the [Map] objects
    of scanned and of analyzed documents. *)
Record Heap : Type := mkHeap {
  work : AsyncWorkCache.World Payload;
  scannedStore : JsMap.Store ScannedDocument;
  analyzedStore : JsMap.Store Document
}.

Definition emptyHeap : Heap :=
  mkHeap AsyncWorkCache.emptyWorld JsMap.emptyStore JsMap.emptyStore.

Definition onWork {A} (m : State (AsyncWorkCache.World Payload) A) : State Heap A :=
  zoom work (λ w h, mkHeap w (scannedStore h) (analyzedStore h)) m.

Definition onScanned {A} (m : State (JsMap.Store ScannedDocument) A) : State Heap A :=
  zoom scannedStore (λ s h, mkHeap (work h) s (analyzedStore h)) m.

Definition onAnalyzed {A} (m : State (JsMap.Store Document) A) : State Heap A :=
  zoom analyzedStore (λ s h, mkHeap (work h) (scannedStore h) s) m.

(** The fields of an [AnalysisCache] object.  The dependency graph has value
    semantics (modelled from the spec) and is held as a value. *)
Record t : Type := mkCache {
  parsedDocumentPromises : loc;
  scannedDocumentPromises : loc;
  dependenciesScannedPromises : loc;
  analyzedDocumentPromises : loc;
  scannedDocuments : loc;
  analyzedDocuments : loc;
  dependencyGraph : DependencyGraph.t
}.

(** [constructor(from?, newDependencyGraph?)] *)
Definition constructor (from : option t) (newDependencyGraph : option DependencyGraph.t)
  : State Heap t :=
  parsed ← onWork (AsyncWorkCache.new (parsedDocumentPromises <$> from));
  scanned ← onWork (AsyncWorkCache.new (scannedDocumentPromises <$> from));
  analyzed ← onWork (AsyncWorkCache.new (analyzedDocumentPromises <$> from));
  dependenciesScanned ← onWork (AsyncWorkCache.new (dependenciesScannedPromises <$> from));
  scannedDocs ← onScanned (JsMap.new (scannedDocuments <$> from));
  analyzedDocs ← onAnalyzed (JsMap.new (analyzedDocuments <$> from));
  mret (mkCache parsed scanned dependenciesScanned analyzed scannedDocs analyzedDocs
          (default DependencyGraph.empty newDependencyGraph)).

(** The body of the loop over [documentPaths] in [invalidate]. *)
Definition invalidatePath (this newCache : t) (path : string) : State Heap unit :=
  let dependants := DependencyGraph.getAllDependantsOf (dependencyGraph this) path in
  onWork (AsyncWorkCache.delete (parsedDocumentPromises newCache) path);;
  onWork (AsyncWorkCache.delete (scannedDocumentPromises newCache) path);;
  onWork (AsyncWorkCache.delete (dependenciesScannedPromises newCache) path);;
  onScanned (JsMap.delete (scannedDocuments newCache) path);;
  onAnalyzed (JsMap.delete (analyzedDocuments newCache) path);;
  forEach (elements dependants) (λ partiallyInvalidatedPath,
    onWork (AsyncWorkCache.delete (dependenciesScannedPromises newCache)
              partiallyInvalidatedPath);;
    onAnalyzed (JsMap.delete (analyzedDocuments newCache) partiallyInvalidatedPath));;
  onWork (AsyncWorkCache.clear (analyzedDocumentPromises newCache));;
  keyValues ← onAnalyzed (JsMap.entries (analyzedDocuments newCache));
  forEach keyValues (λ keyValue,
    onWork (AsyncWorkCache.set (analyzedDocumentPromises newCache)
              keyValue.1 (AnalyzedP keyValue.2))).

(** [invalidate(documentPaths)] *)
Definition invalidate (this : t) (documentPaths : list string) : State Heap t :=
  newCache ← constructor (Some this)
    (Some (DependencyGraph.invalidatePaths (dependencyGraph this) documentPaths));
  forEach documentPaths (invalidatePath this newCache);;
  mret newCache.

(** *** The algorithm of the specification

    The five steps as the specification words them, for comparison with
    [invalidate]: step 4 runs once, after the loop of step 3. *)
Definition specStep3 (this next : t) (id : string) : State Heap unit :=
  let dependants := DependencyGraph.getAllDependantsOf (dependencyGraph this) id in
  onWork (AsyncWorkCache.delete (parsedDocumentPromises next) id);;
  onWork (AsyncWorkCache.delete (scannedDocumentPromises next) id);;
  onWork (AsyncWorkCache.delete (dependenciesScannedPromises next) id);;
  onWork (AsyncWorkCache.delete (analyzedDocumentPromises next) id);;
  onScanned (JsMap.delete (scannedDocuments next) id);;
  onAnalyzed (JsMap.delete (analyzedDocuments next) id);;
  forEach (elements dependants) (λ d,
    onWork (AsyncWorkCache.delete (dependenciesScannedPromises next) d);;
    onAnalyzed (JsMap.delete (analyzedDocuments next) d);;
    onWork (AsyncWorkCache.delete (analyzedDocumentPromises next) d)).

Definition specStep4 (next : t) : State Heap unit :=
  onWork (AsyncWorkCache.clear (analyzedDocumentPromises next));;
  published ← onAnalyzed (JsMap.entries (analyzedDocuments next));
  forEach published (λ kv,
    onWork (AsyncWorkCache.set (analyzedDocumentPromises next) kv.1 (AnalyzedP kv.2))).

Definition invalidateSpec (this : t) (ids : list string) : State Heap t :=
  let newGraph := DependencyGraph.invalidatePaths (dependencyGraph this) ids in
  next ← constructor (Some this) (Some newGraph);
  forEach ids (specStep3 this next);;
  specStep4 next;;
  mret next.

(** *** Reading a snapshot *)

Definition cacheAt (h : Heap) (c : loc) : gmap string Promise :=
  AsyncWorkCache.entriesOf (work h) c.

Definition parsedCache (h : Heap) (c : t) := cacheAt h (parsedDocumentPromises c).
Definition scannedCache (h : Heap) (c : t) := cacheAt h (scannedDocumentPromises c).
Definition dependenciesScannedCache (h : Heap) (c : t) :=
  cacheAt h (dependenciesScannedPromises c).
Definition analyzedCache (h : Heap) (c : t) := cacheAt h (analyzedDocumentPromises c).

Definition publishedScanned (h : Heap) (c : t) : gmap string ScannedDocument :=
  JsMap.contentsOf (scannedStore h) (scannedDocuments c).
Definition publishedAnalyzed (h : Heap) (c : t) : gmap string Document :=
  JsMap.contentsOf (analyzedStore h) (analyzedDocuments c).

(** Every object of the snapshot has been allocated in the store. *)
Definition allocated (h : Heap) (c : t) : Prop :=
  let n := JsMap.nextLoc (AsyncWorkCache.maps (work h)) in
  parsedDocumentPromises c < n ∧ scannedDocumentPromises c < n ∧
  dependenciesScannedPromises c < n ∧ analyzedDocumentPromises c < n ∧
  scannedDocuments c < JsMap.nextLoc (scannedStore h) ∧
  analyzedDocuments c < JsMap.nextLoc (analyzedStore h).

(** *** Notions used in the statements below *)

(** Every store operation of [invalidate] after the fork rewrites the
    contents of one object in place. *)
Definition updateCache (c : loc) (f : gmap string Promise → gmap string Promise)
  : State Heap unit :=
  onWork (AsyncWorkCache.onMaps (JsMap.update c f)).

Definition updateScanned (l : loc)
    (f : gmap string ScannedDocument → gmap string ScannedDocument) : State Heap unit :=
  onScanned (JsMap.update l f).

Definition updateAnalyzed (l : loc)
    (f : gmap string Document → gmap string Document) : State Heap unit :=
  onAnalyzed (JsMap.update l f).

Definition cacheLocs (c : t) : list loc :=
  [parsedDocumentPromises c; scannedDocumentPromises c;
   dependenciesScannedPromises c; analyzedDocumentPromises c].

(** [h'] differs from [h] at most in the contents of the objects of [c]. *)
Definition modifiesOnly (c : t) (h h' : Heap) : Prop :=
  let W x := AsyncWorkCache.maps (work x) in
  JsMap.nextLoc (W h') = JsMap.nextLoc (W h) ∧
  JsMap.nextLoc (scannedStore h') = JsMap.nextLoc (scannedStore h) ∧
  JsMap.nextLoc (analyzedStore h') = JsMap.nextLoc (analyzedStore h) ∧
  AsyncWorkCache.invocations (work h') = AsyncWorkCache.invocations (work h) ∧
  (∀ l, l ∉ cacheLocs c → JsMap.objects (W h') !! l = JsMap.objects (W h) !! l) ∧
  (∀ l, l ≠ scannedDocuments c →
        JsMap.objects (scannedStore h') !! l = JsMap.objects (scannedStore h) !! l) ∧
  (∀ l, l ≠ analyzedDocuments c →
        JsMap.objects (analyzedStore h') !! l = JsMap.objects (analyzedStore h) !! l) ∧
  (∀ l, is_Some (JsMap.objects (W h) !! l) → is_Some (JsMap.objects (W h') !! l)) ∧
  (∀ l, is_Some (JsMap.objects (scannedStore h) !! l) →
        is_Some (JsMap.objects (scannedStore h') !! l)) ∧
  (∀ l, is_Some (JsMap.objects (analyzedStore h) !! l) →
        is_Some (JsMap.objects (analyzedStore h') !! l)).

(** [h'] leaves every object that exists in [h] as it is, and the log of
    computations too. *)
Definition preserves (h h' : Heap) : Prop :=
  (∀ l, l < JsMap.nextLoc (AsyncWorkCache.maps (work h)) →
        JsMap.objects (AsyncWorkCache.maps (work h')) !! l =
        JsMap.objects (AsyncWorkCache.maps (work h)) !! l) ∧
  (∀ l, l < JsMap.nextLoc (scannedStore h) →
        JsMap.objects (scannedStore h') !! l = JsMap.objects (scannedStore h) !! l) ∧
  (∀ l, l < JsMap.nextLoc (analyzedStore h) →
        JsMap.objects (analyzedStore h') !! l = JsMap.objects (analyzedStore h) !! l) ∧
  AsyncWorkCache.invocations (work h') = AsyncWorkCache.invocations (work h).

(** The snapshot [nc] was allocated on top of [h], with objects of its own. *)
Definition freshIn (h h1 : Heap) (nc : t) : Prop :=
  let n := JsMap.nextLoc (AsyncWorkCache.maps (work h)) in
  parsedDocumentPromises nc = n ∧ scannedDocumentPromises nc = S n ∧
  analyzedDocumentPromises nc = S (S n) ∧ dependenciesScannedPromises nc = S (S (S n)) ∧
  scannedDocuments nc = JsMap.nextLoc (scannedStore h) ∧
  analyzedDocuments nc = JsMap.nextLoc (analyzedStore h) ∧
  (∀ l, l ∈ cacheLocs nc → is_Some (JsMap.objects (AsyncWorkCache.maps (work h1)) !! l)) ∧
  is_Some (JsMap.objects (scannedStore h1) !! scannedDocuments nc) ∧
  is_Some (JsMap.objects (analyzedStore h1) !! analyzedDocuments nc) ∧
  JsMap.nextLoc (AsyncWorkCache.maps (work h1)) = S (S (S (S n))) ∧
  JsMap.nextLoc (scannedStore h1) = S (JsMap.nextLoc (scannedStore h)) ∧
  JsMap.nextLoc (analyzedStore h1) = S (JsMap.nextLoc (analyzedStore h)).

(** One round of invalidation for [path], as far as the containers other
    than the analyzed work cache are concerned: [path] leaves every
    container, its dependants leave the dependencies-scanned work cache
    and the published analyzed documents. *)
Definition roundEffect (this nc : t) (path : string) (h h' : Heap) : Prop :=
  let ds := elements (DependencyGraph.getAllDependantsOf (dependencyGraph this) path) in
  cacheAt h' (parsedDocumentPromises nc) =
    delete path (cacheAt h (parsedDocumentPromises nc)) ∧
  cacheAt h' (scannedDocumentPromises nc) =
    delete path (cacheAt h (scannedDocumentPromises nc)) ∧
  cacheAt h' (dependenciesScannedPromises nc) =
    foldl (λ m k, delete k m) (delete path (cacheAt h (dependenciesScannedPromises nc))) ds ∧
  JsMap.contentsOf (scannedStore h') (scannedDocuments nc) =
    delete path (JsMap.contentsOf (scannedStore h) (scannedDocuments nc)) ∧
  JsMap.contentsOf (analyzedStore h') (analyzedDocuments nc) =
    foldl (λ m k, delete k m)
      (delete path (JsMap.contentsOf (analyzedStore h) (analyzedDocuments nc))) ds ∧
  modifiesOnly nc h h'.

(** The ids [invalidate] treats as stale: the given paths and all their
    transitive dependants in the graph of the receiver. *)
Definition staleIds (g : DependencyGraph.t) (paths : list string) : gset string :=
  list_to_set paths ∪ ⋃ (DependencyGraph.getAllDependantsOf g <$> paths).

(** The entry [set] installs for a published analyzed document. *)
Definition resolvedDocument (d : Document) : Promise :=
  AsyncWorkCache.Resolved (AnalyzedP d).
End AnalysisCache.
Arguments Payload : clear implicits.
Arguments Heap : clear implicits.
End AnalysisCache.

(** ** Worked examples *)
Module Examples.
Import AnalysisCache.

(** The cycle of the specification: A depends on B, B on C, C on A. *)
Definition cycle : DependencyGraph.t := {[ ("A", "B"); ("B", "C"); ("C", "A") ]}.

(** A depends on B and B depends on C. *)
Definition chain : DependencyGraph.t :=
  DependencyGraph.setDependencies "A" {[ "B" ]}
    (DependencyGraph.setDependencies "B" {[ "C" ]} DependencyGraph.empty).

(** A snapshot over [chain] with parsed, scanned and analyzed results for A,
    B and C, and dependencies-scanned results for A and B. *)
Definition seedChain : State (Heap string string string) AnalysisCache.t :=
  c ← constructor None (Some chain);
  forEach ["A"; "B"; "C"] (λ id,
    onWork (AsyncWorkCache.set (parsedDocumentPromises c) id (ParsedP "ast"));;
    onWork (AsyncWorkCache.set (scannedDocumentPromises c) id (ScannedP "features"));;
    onWork (AsyncWorkCache.set (analyzedDocumentPromises c) id (AnalyzedP "document"));;
    onScanned (JsMap.set (scannedDocuments c) id "features");;
    onAnalyzed (JsMap.set (analyzedDocuments c) id "document"));;
  forEach ["A"; "B"] (λ id,
    onWork (AsyncWorkCache.set (dependenciesScannedPromises c) id (ScannedP "features")));;
  mret c.

Definition chainCache : AnalysisCache.t := eval seedChain emptyHeap.
Definition chainStore : Heap string string string := exec seedChain emptyHeap.

(** A snapshot in which the analysis of A is in flight, and in which the
    scanned work cache and the published scanned documents hold different
    results for A. *)
Definition seedUnsynced : State (Heap string string string) AnalysisCache.t :=
  c ← constructor None None;
  onWork (AsyncWorkCache.getOrCompute (analyzedDocumentPromises c) "A" 0);;
  onWork (AsyncWorkCache.set (scannedDocumentPromises c) "A" (ScannedP "first scan"));;
  onScanned (JsMap.set (scannedDocuments c) "A" "second scan");;
  mret c.

Definition unsyncedCache : AnalysisCache.t := eval seedUnsynced emptyHeap.
Definition unsyncedStore : Heap string string string := exec seedUnsynced emptyHeap.

(** A world with one empty work cache, at location [0]. *)
Definition oneCache : AsyncWorkCache.World string :=
  exec (AsyncWorkCache.new None) AsyncWorkCache.emptyWorld.

(** A world in which the computation for key [k] of cache [0] has failed. *)
Definition failedWorld : AsyncWorkCache.World string :=
  exec (AsyncWorkCache.run
          [AsyncWorkCache.GetOrCompute 0 "k" 1;
           AsyncWorkCache.Settle 0 (AsyncWorkCache.Failure "boom")]) oneCache.

(** Three callers ask for [k]; the computation settles in between. *)
Definition dedupTrace : list (AsyncWorkCache.Op string) :=
  [AsyncWorkCache.GetOrCompute 0 "k" 1; AsyncWorkCache.GetOrCompute 0 "k" 2;
   AsyncWorkCache.Settle 0 (AsyncWorkCache.Success "v");
   AsyncWorkCache.GetOrCompute 0 "k" 3].

(** [set(k, v)] comes between two callers of [getOrCompute(k, _)]. *)
Definition setTrace : list (AsyncWorkCache.Op string) :=
  [AsyncWorkCache.GetOrCompute 0 "k" 1; AsyncWorkCache.Set' 0 "k" "v";
   AsyncWorkCache.GetOrCompute 0 "k" 2;
   AsyncWorkCache.Settle 0 (AsyncWorkCache.Failure "boom")].

(** Operations that leave the entry of [k] in cache [0] alone. *)
Definition quietTrace : list (AsyncWorkCache.Op string) :=
  [AsyncWorkCache.GetOrCompute 0 "k" 2; AsyncWorkCache.Fork (Some 0);
   AsyncWorkCache.GetOrCompute 0 "other" 3].
End Examples.

(** ** Whole snapshots *)
Module Snapshot.
Section Snapshot.
Context {ParsedDocument ScannedDocument Document : Type}.
Import AnalysisCache.

(** What can be read through a snapshot: the entries of its four work caches
    and of its two published mappings. *)
Record Contents : Type := mkContents {
  parsed : gmap string (AsyncWorkCache.Promise (Payload ParsedDocument ScannedDocument Document));
  scanned : gmap string (AsyncWorkCache.Promise (Payload ParsedDocument ScannedDocument Document));
  dependenciesScanned :
    gmap string (AsyncWorkCache.Promise (Payload ParsedDocument ScannedDocument Document));
  analyzed : gmap string (AsyncWorkCache.Promise (Payload ParsedDocument ScannedDocument Document));
  scannedPublished : gmap string ScannedDocument;
  analyzedPublished : gmap string Document
}.

Definition contents (h : Heap ParsedDocument ScannedDocument Document)
    (c : AnalysisCache.t) : Contents :=
  mkContents (parsedCache h c) (scannedCache h c) (dependenciesScannedCache h c)
    (analyzedCache h c) (publishedScanned h c) (publishedAnalyzed h c).

(** A write to one of the container objects of [c], whatever it does to the
    entries of that object. *)
Inductive writesTo (c : AnalysisCache.t)
  : State (Heap ParsedDocument ScannedDocument Document) unit → Prop :=
| writes_cache l f : l ∈ cacheLocs c → writesTo c (updateCache l f)
| writes_scanned f : writesTo c (updateScanned (scannedDocuments c) f)
| writes_analyzed f : writesTo c (updateAnalyzed (analyzedDocuments c) f).

(** The published scanned documents agree with the scanned work cache: an id
    that has both a published document and a cache entry has the resolved
    promise of the published document as its entry. *)
Definition scannedAgree (h : Heap ParsedDocument ScannedDocument Document)
    (c : AnalysisCache.t) : Prop :=
  ∀ id d p, publishedScanned h c !! id = Some d → scannedCache h c !! id = Some p →
            p = AsyncWorkCache.Resolved (ScannedP d).

Definition analyzedAgree (h : Heap ParsedDocument ScannedDocument Document)
    (c : AnalysisCache.t) : Prop :=
  ∀ id d p, publishedAnalyzed h c !! id = Some d → analyzedCache h c !! id = Some p →
            p = AsyncWorkCache.Resolved (AnalyzedP d).

(** An editing session: every batch of changed documents invalidates the
    current snapshot, and the returned snapshot becomes the current one. *)
Fixpoint invalidateAll (c : AnalysisCache.t) (batches : list (list string))
  : State (Heap ParsedDocument ScannedDocument Document) AnalysisCache.t :=
  match batches with
  | [] => mret c
  | paths :: batches' => c' ← invalidate c paths; invalidateAll c' batches'
  end.
End Snapshot.
Arguments Contents : clear implicits.
End Snapshot.

(** ** Dependency graphs as objects ([./dependency-graph], not available)

  An [AnalysisCache] holds its [DependencyGraph] by reference.  The graph
  objects live in a store of their own; the methods of the class are
  computations on that store, each acting on the edges of its receiver as
  the operation of [DependencyGraph] of the same name does. *)
Module DependencyGraphObject.
Record Store : Type := mkStore {
  objects : gmap loc DependencyGraph.t;
  nextLoc : loc
}.

Definition emptyStore : Store := mkStore ∅ 0.

Definition edgesOf (s : Store) (g : loc) : DependencyGraph.t :=
  default DependencyGraph.empty (objects s !! g).

Definition alloc (edges : DependencyGraph.t) : State Store loc :=
  λ s, (nextLoc s, mkStore (<[nextLoc s := edges]> (objects s)) (S (nextLoc s))).

(** Modelled from the spec: [new DependencyGraph()], a fresh graph without
    edges. *)
Definition new : State Store loc := alloc DependencyGraph.empty.

(** Modelled from the spec: [setDependencies(id, dependencyIds)] replaces
    the outgoing edges of [id] in the receiver. *)
Definition setDependencies (g : loc) (id : string) (dependencyIds : gset string)
  : State Store unit :=
  λ s, (tt, mkStore (<[g := DependencyGraph.setDependencies id dependencyIds (edgesOf s g)]>
                       (objects s))
                    (nextLoc s)).

(** Modelled from the spec: [getAllDependantsOf(id)] is a query on the edges
    of the receiver. *)
Definition getAllDependantsOf (g : loc) (id : string) : State Store (gset string) :=
  λ s, (DependencyGraph.getAllDependantsOf (edgesOf s g) id, s).

(** Modelled from the spec: [invalidatePaths(ids)] returns a new graph; the
    receiver is never mutated. *)
Definition invalidatePaths (g : loc) (ids : list string) : State Store loc :=
  λ s, alloc (DependencyGraph.invalidatePaths (edgesOf s g) ids) s.
End DependencyGraphObject.

(** ** The analysis cache with its graph held by reference ([src/core/analysis-cache.ts])

  The class once more, with the field [dependencyGraph] holding the location
  of a graph object as the six other fields hold the locations of their
  containers.  The store is the store of the containers together with the
  store of the graph objects. *)
Module AnalysisCacheObject.
Section AnalysisCacheObject.
Context {ParsedDocument ScannedDocument Document : Type}.

Record Heap : Type := mkHeap {
  containers : AnalysisCache.Heap ParsedDocument ScannedDocument Document;
  graphs : DependencyGraphObject.Store
}.

Definition emptyHeap : Heap :=
  mkHeap AnalysisCache.emptyHeap DependencyGraphObject.emptyStore.

Definition onContainers {A}
    (m : State (AnalysisCache.Heap ParsedDocument ScannedDocument Document) A)
  : State Heap A :=
  zoom containers (λ c h, mkHeap c (graphs h)) m.

Definition onGraphs {A} (m : State DependencyGraphObject.Store A) : State Heap A :=
  zoom graphs (λ g h, mkHeap (containers h) g) m.

Definition onWork {A}
    (m : State (AsyncWorkCache.World (AnalysisCache.Payload ParsedDocument ScannedDocument Document)) A)
  : State Heap A :=
  onContainers (AnalysisCache.onWork m).

Definition onScanned {A} (m : State (JsMap.Store ScannedDocument) A) : State Heap A :=
  onContainers (AnalysisCache.onScanned m).

Definition onAnalyzed {A} (m : State (JsMap.Store Document) A) : State Heap A :=
  onContainers (AnalysisCache.onAnalyzed m).

(** The fields of an [AnalysisCache] object, every one a reference. *)
Record t : Type := mkCache {
  parsedDocumentPromises : loc;
  scannedDocumentPromises : loc;
  dependenciesScannedPromises : loc;
  analyzedDocumentPromises : loc;
  scannedDocuments : loc;
  analyzedDocuments : loc;
  dependencyGraph : loc
}.

(** [constructor(from?, newDependencyGraph?)] *)
Definition constructor (from : option t) (newDependencyGraph : option loc)
  : State Heap t :=
  parsed ← onWork (AsyncWorkCache.new (parsedDocumentPromises <$> from));
  scanned ← onWork (AsyncWorkCache.new (scannedDocumentPromises <$> from));
  analyzed ← onWork (AsyncWorkCache.new (analyzedDocumentPromises <$> from));
  dependenciesScanned ← onWork (AsyncWorkCache.new (dependenciesScannedPromises <$> from));
  scannedDocs ← onScanned (JsMap.new (scannedDocuments <$> from));
  analyzedDocs ← onAnalyzed (JsMap.new (analyzedDocuments <$> from));
  graph ← match newDependencyGraph with
          | Some g => mret g
          | None => onGraphs DependencyGraphObject.new
          end;
  mret (mkCache parsed scanned dependenciesScanned analyzed scannedDocs analyzedDocs graph).

(** The body of the loop over [documentPaths] in [invalidate]. *)
Definition invalidatePath (this newCache : t) (path : string) : State Heap unit :=
  dependants ← onGraphs
    (DependencyGraphObject.getAllDependantsOf (dependencyGraph this) path);
  onWork (AsyncWorkCache.delete (parsedDocumentPromises newCache) path);;
  onWork (AsyncWorkCache.delete (scannedDocumentPromises newCache) path);;
  onWork (AsyncWorkCache.delete (dependenciesScannedPromises newCache) path);;
  onScanned (JsMap.delete (scannedDocuments newCache) path);;
  onAnalyzed (JsMap.delete (analyzedDocuments newCache) path);;
  forEach (elements dependants) (λ partiallyInvalidatedPath,
    onWork (AsyncWorkCache.delete (dependenciesScannedPromises newCache)
              partiallyInvalidatedPath);;
    onAnalyzed (JsMap.delete (analyzedDocuments newCache) partiallyInvalidatedPath));;
  onWork (AsyncWorkCache.clear (analyzedDocumentPromises newCache));;
  keyValues ← onAnalyzed (JsMap.entries (analyzedDocuments newCache));
  forEach keyValues (λ keyValue,
    onWork (AsyncWorkCache.set (analyzedDocumentPromises newCache)
              keyValue.1 (AnalysisCache.AnalyzedP keyValue.2))).

(** [invalidate(documentPaths)] *)
Definition invalidate (this : t) (documentPaths : list string) : State Heap t :=
  newGraph ← onGraphs
    (DependencyGraphObject.invalidatePaths (dependencyGraph this) documentPaths);
  newCache ← constructor (Some this) (Some newGraph);
  forEach documentPaths (invalidatePath this newCache);;
  mret newCache.

(** *** Reading a snapshot *)

(** The snapshot [c] with the edges of its graph read off the store. *)
Definition snapshotOf (h : Heap) (c : t) : AnalysisCache.t :=
  AnalysisCache.mkCache (parsedDocumentPromises c) (scannedDocumentPromises c)
    (dependenciesScannedPromises c) (analyzedDocumentPromises c)
    (scannedDocuments c) (analyzedDocuments c)
    (DependencyGraphObject.edgesOf (graphs h) (dependencyGraph c)).

Definition parsedCache (h : Heap) (c : t) :=
  AnalysisCache.cacheAt (containers h) (parsedDocumentPromises c).
Definition scannedCache (h : Heap) (c : t) :=
  AnalysisCache.cacheAt (containers h) (scannedDocumentPromises c).
Definition dependenciesScannedCache (h : Heap) (c : t) :=
  AnalysisCache.cacheAt (containers h) (dependenciesScannedPromises c).
Definition analyzedCache (h : Heap) (c : t) :=
  AnalysisCache.cacheAt (containers h) (analyzedDocumentPromises c).
Definition publishedScanned (h : Heap) (c : t) : gmap string ScannedDocument :=
  JsMap.contentsOf (AnalysisCache.scannedStore (containers h)) (scannedDocuments c).
Definition publishedAnalyzed (h : Heap) (c : t) : gmap string Document :=
  JsMap.contentsOf (AnalysisCache.analyzedStore (containers h)) (analyzedDocuments c).

(** The query [dependencyGraph.getAllDependantsOf(id)] through the
    snapshot [c]. *)
Definition dependantsOf (h : Heap) (c : t) (id : string) : gset string :=
  eval (onGraphs (DependencyGraphObject.getAllDependantsOf (dependencyGraph c) id)) h.

Definition cacheLocs (c : t) : list loc :=
  [parsedDocumentPromises c; scannedDocumentPromises c;
   dependenciesScannedPromises c; analyzedDocumentPromises c].

(** Every object of the snapshot, the graph too, has been allocated. *)
Definition allocated (h : Heap) (c : t) : Prop :=
  AnalysisCache.allocated (containers h) (snapshotOf h c) ∧
  dependencyGraph c < DependencyGraphObject.nextLoc (graphs h).

(** [h'] leaves every object that exists in [h] as it is: the containers,
    the log of computations, and the graphs. *)
Definition preserves (h h' : Heap) : Prop :=
  AnalysisCache.preserves (containers h) (containers h') ∧
  (∀ g, g < DependencyGraphObject.nextLoc (graphs h) →
        DependencyGraphObject.objects (graphs h') !! g =
        DependencyGraphObject.objects (graphs h) !! g).
End AnalysisCacheObject.
Arguments Heap : clear implicits.
End AnalysisCacheObject.

(** ** A worked example with the graph as an object *)
Module ObjectExamples.
Import AnalysisCacheObject.

(** The snapshot of [Examples.seedChain] with its graph as an object: A
    depends on B and B depends on C. *)
Definition seedChain : State (Heap string string string) AnalysisCacheObject.t :=
  c ← constructor None None;
  onGraphs (DependencyGraphObject.setDependencies (dependencyGraph c) "B" {[ "C" ]});;
  onGraphs (DependencyGraphObject.setDependencies (dependencyGraph c) "A" {[ "B" ]});;
  forEach ["A"; "B"; "C"] (λ id,
    onWork (AsyncWorkCache.set (parsedDocumentPromises c) id (AnalysisCache.ParsedP "ast"));;
    onWork (AsyncWorkCache.set (scannedDocumentPromises c) id
              (AnalysisCache.ScannedP "features"));;
    onWork (AsyncWorkCache.set (analyzedDocumentPromises c) id
              (AnalysisCache.AnalyzedP "document"));;
    onScanned (JsMap.set (scannedDocuments c) id "features");;
    onAnalyzed (JsMap.set (analyzedDocuments c) id "document"));;
  forEach ["A"; "B"] (λ id,
    onWork (AsyncWorkCache.set (dependenciesScannedPromises c) id
              (AnalysisCache.ScannedP "features")));;
  mret c.

Definition chainCache : AnalysisCacheObject.t := eval seedChain emptyHeap.
Definition chainStore : Heap string string string := exec seedChain emptyHeap.
End ObjectExamples.

(** * Properties *)

(** ** The state monad *)
Section StateFacts.
Context {S : Type}.

Lemma exec_bind {A B} (m : State S A) (f : A → State S B) (s : S) :
  exec (m ≫= f) s = exec (f (eval m s)) (exec m s).
Proof. unfold exec, eval, mbind, state_bind. by destruct (m s). Qed.

Lemma eval_bind {A B} (m : State S A) (f : A → State S B) (s : S) :
  eval (m ≫= f) s = eval (f (eval m s)) (exec m s).
Proof. unfold exec, eval, mbind, state_bind. by destruct (m s). Qed.

Lemma exec_ret {A} (a : A) (s : S) : exec (mret a) s = s.
Proof. done. Qed.

Lemma eval_ret {A} (a : A) (s : S) : eval (mret a) s = a.
Proof. done. Qed.

Lemma exec_forEach {A} (body : A → State S unit) (l : list A) (s : S) :
  exec (forEach l body) s = foldl (λ s' x, exec (body x) s') s l.
Proof.
  revert s. induction l as [|x l IH]; intros s; simpl; [done |].
  by rewrite exec_bind, IH.
Qed.

Lemma state_run_eq {A} (m : State S A) (s : S) : m s = (eval m s, exec m s).
Proof. unfold eval, exec. by destruct (m s). Qed.
End StateFacts.

(** ** The dependency graph *)
Section DependencyGraphFacts.
Implicit Types (g : DependencyGraph.t) (X seen : gset string) (id d : string).

Lemma elem_of_directDependants g X d :
  d ∈ DependencyGraph.directDependants g X ↔
  ∃ x, x ∈ X ∧ DependencyGraph.importedBy g x d.
Proof.
  unfold DependencyGraph.directDependants, DependencyGraph.importedBy.
  rewrite elem_of_map. split.
  - intros [[a b] [-> [Hb Hg]%elem_of_filter]]. simpl in *. eauto.
  - intros [x [Hx Hg]]. exists (d, x). rewrite elem_of_filter. auto.
Qed.

Lemma directDependants_sources g X :
  DependencyGraph.directDependants g X ⊆ DependencyGraph.sources g.
Proof.
  intros d [x [_ Hg]]%elem_of_directDependants.
  unfold DependencyGraph.sources. apply elem_of_map. by exists (d, x).
Qed.

(** With enough fuel the iteration stops at a set closed under direct
    dependants. *)
Lemma closeUnder_closed g fuel : ∀ seen,
  seen ⊆ DependencyGraph.sources g →
  size (DependencyGraph.sources g) ≤ fuel + size seen →
  seen ⊆ DependencyGraph.closeUnder fuel g seen ∧
  DependencyGraph.directDependants g (DependencyGraph.closeUnder fuel g seen)
    ⊆ DependencyGraph.closeUnder fuel g seen.
Proof.
  induction fuel as [|n IH]; intros seen Hsub Hsz; cbn [DependencyGraph.closeUnder].
  - assert (seen = DependencyGraph.sources g) as ->
      by (apply set_subseteq_size_eq; [done | lia]).
    split; [done | apply directDependants_sources].
  - cbn zeta.
    destruct (decide (seen ∪ DependencyGraph.directDependants g seen ⊆ seen)) as [Hc | Hc].
    + split; [done |]. intros d Hd. apply Hc, elem_of_union. by right.
    + destruct (IH (seen ∪ DependencyGraph.directDependants g seen)) as [H1 H2].
      * pose proof (directDependants_sources g seen).
        by apply union_least.
      * assert (seen ⊂ seen ∪ DependencyGraph.directDependants g seen) as Hlt%subset_size
          by (split; [apply union_subseteq_l | done]).
        lia.
      * split; [| done]. etrans; [apply union_subseteq_l | exact H1].
Qed.

(** Whatever the fuel, the iteration only adds ids reached through reverse
    edges. *)
Lemma closeUnder_sound g (P : string → Prop) fuel : ∀ seen,
  (∀ x d, P x → DependencyGraph.importedBy g x d → P d) →
  (∀ d, d ∈ seen → P d) →
  ∀ d, d ∈ DependencyGraph.closeUnder fuel g seen → P d.
Proof.
  induction fuel as [|n IH]; intros seen Hstep Hseen d;
    cbn [DependencyGraph.closeUnder]; [by auto |].
  cbn zeta. destruct (decide _); [by auto |].
  apply IH; [done |]. intros d' [?|Hd]%elem_of_union; [by auto |].
  apply elem_of_directDependants in Hd as [x [Hx Hg]]. eauto.
Qed.

Lemma elem_of_getAllDependantsOf g id d :
  d ∈ DependencyGraph.getAllDependantsOf g id ↔
  tc (DependencyGraph.importedBy g) id d ∧ d ≠ id.
Proof.
  unfold DependencyGraph.getAllDependantsOf.
  rewrite elem_of_difference, not_elem_of_singleton.
  apply and_iff_compat_r. split.
  - apply closeUnder_sound.
    + intros x y Hx Hxy. eapply tc_r; eauto.
    + intros y [x [->%elem_of_singleton Hg]]%elem_of_directDependants.
      by apply tc_once.
  - destruct (closeUnder_closed g (size (DependencyGraph.sources g))
                (DependencyGraph.directDependants g {[id]})) as [H1 H2].
    { apply directDependants_sources. }
    { lia. }
    set (r := DependencyGraph.closeUnder _ _ _) in *.
    assert (∀ x y, tc (DependencyGraph.importedBy g) x y →
              (∀ z, DependencyGraph.importedBy g x z → z ∈ r) → y ∈ r) as Hreach.
    { induction 1 as [x y Hxy | x y z Hxy _ IH]; intros Hx; [by auto |].
      apply IH. intros w Hw. apply H2, elem_of_directDependants. eauto. }
    intros Htc. apply (Hreach _ _ Htc). intros z Hz.
    apply H1, elem_of_directDependants. exists id.
    split; [by apply elem_of_singleton | done].
Qed.

Lemma invalidatePaths_nil g : DependencyGraph.invalidatePaths g [] = g.
Proof.
  unfold DependencyGraph.invalidatePaths. apply set_eq. intros e.
  rewrite elem_of_filter. cbn. rewrite union_empty_l_L.
  split; [by intros [_ ?] | intros ?].
  split; [| done]. split; apply not_elem_of_empty.
Qed.

(** C8: for every dependency graph, cycles included, [getAllDependantsOf]
    returns a result (it is a total function), and the result is exactly
    the set of ids reachable from [id] through one or more reverse edges,
    without [id] itself, each of them once in the iteration order; for the
    cycle A→B, B→C, C→A the dependants of A are B and C. *)
Theorem getAllDependantsOf_reachable :
  (∀ g id d,
     d ∈ DependencyGraph.getAllDependantsOf g id ↔
     tc (DependencyGraph.importedBy g) id d ∧ d ≠ id) ∧
  (∀ g id, NoDup (elements (DependencyGraph.getAllDependantsOf g id))) ∧
  (∀ g id, id ∉ DependencyGraph.getAllDependantsOf g id) ∧
  DependencyGraph.getAllDependantsOf Examples.cycle "A" = {[ "B"; "C" ]}.
Proof.
  split_and!.
  - apply elem_of_getAllDependantsOf.
  - intros g id. apply NoDup_elements.
  - intros g id [_ Hne]%elem_of_getAllDependantsOf. done.
  - vm_compute. reflexivity.
Qed.
End DependencyGraphFacts.

(** ** [Map] objects *)
Section JsMapFacts.
Context {A : Type}.
Implicit Types (s : JsMap.Store A) (l : loc) (m : gmap string A).

Lemma contentsOf_update s l f l' :
  JsMap.contentsOf (exec (JsMap.update l f) s) l' =
  if decide (l' = l) then f (JsMap.contentsOf s l) else JsMap.contentsOf s l'.
Proof.
  unfold exec, JsMap.update, JsMap.contentsOf; simpl.
  rewrite lookup_insert. repeat case_decide; by simplify_eq.
Qed.

Lemma objects_update_ne s l f l' :
  l' ≠ l → JsMap.objects (exec (JsMap.update l f) s) !! l' = JsMap.objects s !! l'.
Proof. intros. unfold exec, JsMap.update; simpl. by rewrite lookup_insert_ne. Qed.

Lemma objects_update_is_Some s l f l' :
  is_Some (JsMap.objects s !! l') →
  is_Some (JsMap.objects (exec (JsMap.update l f) s) !! l').
Proof.
  intros. unfold exec, JsMap.update; simpl.
  rewrite lookup_insert. by case_decide.
Qed.

Lemma nextLoc_update s l f :
  JsMap.nextLoc (exec (JsMap.update l f) s) = JsMap.nextLoc s.
Proof. done. Qed.

Lemma objects_contentsOf s l :
  is_Some (JsMap.objects s !! l) → JsMap.objects s !! l = Some (JsMap.contentsOf s l).
Proof. intros [m Hm]. unfold JsMap.contentsOf. by rewrite Hm. Qed.

Lemma store_eq s1 s2 :
  JsMap.nextLoc s1 = JsMap.nextLoc s2 →
  (∀ l, JsMap.objects s1 !! l = JsMap.objects s2 !! l) → s1 = s2.
Proof.
  destruct s1 as [o1 n1], s2 as [o2 n2]; simpl. intros -> Ho.
  f_equal. by apply map_eq.
Qed.

(** Deleting the keys of a list one after the other. *)
Lemma lookup_foldl_delete (ks : list string) m k :
  foldl (λ m' k', delete k' m') m ks !! k =
  if decide (k ∈ ks) then None else m !! k.
Proof.
  revert m. induction ks as [|k0 ks IH]; intros m; cbn [foldl].
  - destruct (decide (k ∈ [])) as [Hin | _]; [by apply elem_of_nil in Hin | done].
  - rewrite IH.
    destruct (decide (k ∈ ks)) as [Hin | Hin], (decide (k ∈ k0 :: ks)) as [Hin' | Hin'];
      try done.
    + exfalso. apply Hin'. by right.
    + apply elem_of_cons in Hin' as [-> | ?]; [apply lookup_delete_eq | done].
    + apply lookup_delete_ne. intros ->. apply Hin'. by left.
Qed.
End JsMapFacts.

(** ** The memoizing work cache *)
Section AsyncWorkCacheFacts.
Context {V : Type}.
Abbreviation World' := (AsyncWorkCache.World V).
Abbreviation Op' := (AsyncWorkCache.Op V).
Implicit Types (w : World') (c : loc) (k : string) (p : AsyncWorkCache.Promise V)
  (op : Op') (ops : list Op').

Lemma entriesOf_update w c' f c :
  AsyncWorkCache.entriesOf (exec (AsyncWorkCache.onMaps (JsMap.update c' f)) w) c =
  if decide (c = c') then f (AsyncWorkCache.entriesOf w c')
  else AsyncWorkCache.entriesOf w c.
Proof. apply (contentsOf_update (AsyncWorkCache.maps w)). Qed.

Lemma length_filter_insert_same (P : AsyncWorkCache.Invocation V → Prop)
    `{∀ i, Decision (P i)} (l : list (AsyncWorkCache.Invocation V)) n i i' :
  l !! n = Some i → (P i ↔ P i') →
  length (filter P (<[n := i']> l)) = length (filter P l).
Proof.
  revert n. induction l as [|x l IH]; intros [|n] Hn Hiff; simplify_eq/=; try done.
  - rewrite !filter_cons. repeat case_decide; naive_solver.
  - rewrite !filter_cons. case_decide; simpl; by rewrite (IH n).
Qed.

(** [getOrCompute] on a key that has an entry returns the entry and changes
    nothing. *)
Lemma getOrCompute_hit w c k p f :
  AsyncWorkCache.entriesOf w c !! k = Some p →
  AsyncWorkCache.getOrCompute c k f w = (p, w).
Proof. intros E. unfold AsyncWorkCache.getOrCompute. by rewrite E. Qed.

Lemma getOrCompute_miss_run w c k f :
  AsyncWorkCache.entriesOf w c !! k = None →
  let p := AsyncWorkCache.Computing (length (AsyncWorkCache.invocations w)) in
  AsyncWorkCache.getOrCompute c k f w =
  (p, AsyncWorkCache.mkWorld
        (exec (JsMap.update c (<[k := p]>)) (AsyncWorkCache.maps w))
        (AsyncWorkCache.invocations w ++ [AsyncWorkCache.mkInvocation c k f None])%list).
Proof. intros E. unfold AsyncWorkCache.getOrCompute. by rewrite E. Qed.

(** [getOrCompute] on a key without entry invokes [compute] and registers the
    promise of its result, which is in flight. *)
Lemma getOrCompute_miss w c k f :
  AsyncWorkCache.entriesOf w c !! k = None →
  let p := AsyncWorkCache.Computing (length (AsyncWorkCache.invocations w)) in
  let w' := exec (AsyncWorkCache.getOrCompute c k f) w in
  eval (AsyncWorkCache.getOrCompute c k f) w = p ∧
  AsyncWorkCache.entriesOf w' c !! k = Some p ∧
  AsyncWorkCache.outcomeOf w' p = None ∧
  AsyncWorkCache.computeCount w' c k = S (AsyncWorkCache.computeCount w c k).
Proof.
  intros E p w'. subst p w'. unfold eval, exec.
  rewrite (getOrCompute_miss_run w c k f E). cbn [fst snd].
  split_and!; try done.
  - unfold AsyncWorkCache.entriesOf. cbn [AsyncWorkCache.maps].
    rewrite contentsOf_update, decide_True by done.
    apply lookup_insert_eq.
  - cbn. rewrite lookup_app_r, Nat.sub_diag by done. done.
  - unfold AsyncWorkCache.computeCount. cbn [AsyncWorkCache.invocations].
    rewrite filter_app, length_app.
    rewrite filter_cons, decide_True.
    + cbn. lia.
    + unfold AsyncWorkCache.invokedFor. cbn. by apply bool_decide_eq_true.
Qed.

Lemma nextLoc_step w op :
  JsMap.nextLoc (AsyncWorkCache.maps w) ≤
  JsMap.nextLoc (AsyncWorkCache.maps (exec (AsyncWorkCache.step op) w)).
Proof.
  destruct op as [c' k' f | c' k' v | c' k' | c' | from | pid o]; try done.
  - unfold AsyncWorkCache.step. rewrite exec_bind, exec_ret.
    unfold exec, AsyncWorkCache.getOrCompute.
    by destruct (AsyncWorkCache.entriesOf w c' !! k').
  - unfold AsyncWorkCache.step. rewrite exec_bind, exec_ret.
    unfold exec, AsyncWorkCache.new, AsyncWorkCache.onMaps, zoom, JsMap.new, JsMap.alloc.
    cbn. lia.
  - unfold AsyncWorkCache.step. rewrite exec_bind, exec_ret.
    unfold exec, AsyncWorkCache.settle.
    by destruct (AsyncWorkCache.invocations w !! pid) as [[? ? ? [|]]|].
Qed.

(** An operation that is not about the key leaves its entry alone. *)
Lemma entriesOf_step_other w c k op :
  AsyncWorkCache.allocatedCache w c →
  AsyncWorkCache.evicts c k op = false → AsyncWorkCache.replaces c k op = false →
  (∀ f, op ≠ AsyncWorkCache.GetOrCompute c k f) →
  AsyncWorkCache.entriesOf (exec (AsyncWorkCache.step op) w) c !! k =
  AsyncWorkCache.entriesOf w c !! k.
Proof.
  intros Hc He Hr Hg. destruct op as [c' k' f | c' k' v | c' k' | c' | from | pid o];
    cbn in He, Hr.
  - unfold AsyncWorkCache.step. rewrite exec_bind, exec_ret.
    unfold exec, AsyncWorkCache.getOrCompute.
    destruct (AsyncWorkCache.entriesOf w c' !! k') eqn:E; [done |]. cbn [snd].
    unfold AsyncWorkCache.entriesOf. cbn [AsyncWorkCache.maps]. unfold JsMap.set.
    rewrite contentsOf_update. case_decide; [| done]. subst.
    rewrite lookup_insert_ne; [done |]. intros ->. by apply (Hg f).
  - apply bool_decide_eq_false in Hr.
    unfold AsyncWorkCache.step. rewrite exec_bind, exec_ret.
    unfold AsyncWorkCache.set, JsMap.set. rewrite entriesOf_update.
    case_decide; [| done]. subst. rewrite lookup_insert_ne; [done |]. naive_solver.
  - apply bool_decide_eq_false in He.
    unfold AsyncWorkCache.step. rewrite exec_bind, exec_ret.
    unfold AsyncWorkCache.delete, JsMap.delete. rewrite entriesOf_update.
    case_decide; [| done]. subst. rewrite lookup_delete_ne; [done |]. naive_solver.
  - apply bool_decide_eq_false in He.
    unfold AsyncWorkCache.step. rewrite exec_bind, exec_ret.
    unfold AsyncWorkCache.clear, JsMap.clear. rewrite entriesOf_update.
    case_decide; [| done]. by subst.
  - unfold AsyncWorkCache.allocatedCache in Hc.
    unfold AsyncWorkCache.step. rewrite exec_bind, exec_ret.
    unfold exec, AsyncWorkCache.new, AsyncWorkCache.onMaps, zoom,
      JsMap.new, JsMap.alloc, AsyncWorkCache.entriesOf, JsMap.contentsOf; cbn.
    rewrite lookup_insert_ne by lia. done.
  - unfold AsyncWorkCache.step. rewrite exec_bind, exec_ret.
    unfold exec, AsyncWorkCache.settle.
    by destruct (AsyncWorkCache.invocations w !! pid) as [[? ? ? [|]]|].
Qed.

(** Only a miss of [getOrCompute] for the key invokes a [compute] function
    for it. *)
Lemma computeCount_step_other w c k op :
  (∀ f, op ≠ AsyncWorkCache.GetOrCompute c k f) →
  AsyncWorkCache.computeCount (exec (AsyncWorkCache.step op) w) c k =
  AsyncWorkCache.computeCount w c k.
Proof.
  intros Hg. destruct op as [c' k' f | c' k' v | c' k' | c' | from | pid o]; try done.
  - unfold AsyncWorkCache.step. rewrite exec_bind, exec_ret.
    unfold exec, AsyncWorkCache.getOrCompute.
    destruct (AsyncWorkCache.entriesOf w c' !! k') eqn:E; [done |]. cbn.
    unfold AsyncWorkCache.computeCount; cbn. rewrite filter_app, length_app.
    rewrite filter_cons, decide_False; [cbn; lia |].
    unfold AsyncWorkCache.invokedFor; cbn. rewrite bool_decide_eq_true.
    intros [-> ->]. by apply (Hg f).
  - unfold AsyncWorkCache.step. rewrite exec_bind, exec_ret.
    unfold exec, AsyncWorkCache.settle.
    destruct (AsyncWorkCache.invocations w !! pid) as [[c0 k0 f0 [o0|]]|] eqn:E; try done.
    cbn. unfold AsyncWorkCache.computeCount; cbn.
    by eapply length_filter_insert_same.
Qed.

(** A promise that has settled AsyncWorkCache.keeps its outcome, whatever happens next. *)
Lemma outcomeOf_step w op p o :
  AsyncWorkCache.outcomeOf w p = Some o →
  AsyncWorkCache.outcomeOf (exec (AsyncWorkCache.step op) w) p = Some o.
Proof.
  intros Ho. destruct op as [c' k' f | c' k' v | c' k' | c' | from | pid o']; try done.
  - unfold AsyncWorkCache.step. rewrite exec_bind, exec_ret.
    unfold exec, AsyncWorkCache.getOrCompute.
    destruct (AsyncWorkCache.entriesOf w c' !! k') eqn:E; [done |]. cbn.
    destruct p as [pid | v]; [| done]. cbn in *.
    destruct (AsyncWorkCache.invocations w !! pid) as [i|] eqn:Ei; [| done].
    by rewrite (lookup_app_l_Some _ _ _ _ Ei).
  - unfold AsyncWorkCache.step. rewrite exec_bind, exec_ret.
    unfold exec, AsyncWorkCache.settle.
    destruct (AsyncWorkCache.invocations w !! pid) as [[c0 k0 f0 [o0|]]|] eqn:E; try done.
    cbn. destruct p as [pid' | v]; [| done]. cbn in *.
    destruct (decide (pid' = pid)) as [-> | Hne].
    + rewrite E in Ho. done.
    + by rewrite list_lookup_insert_ne.
Qed.

Lemma run_cons op ops w :
  eval (AsyncWorkCache.run (op :: ops)) w =
    eval (AsyncWorkCache.step op) w
    :: eval (AsyncWorkCache.run ops) (exec (AsyncWorkCache.step op) w) ∧
  exec (AsyncWorkCache.run (op :: ops)) w =
    exec (AsyncWorkCache.run ops) (exec (AsyncWorkCache.step op) w).
Proof.
  cbn [AsyncWorkCache.run]. by rewrite !eval_bind, !exec_bind, eval_ret, exec_ret.
Qed.

Lemma step_getOrCompute c k f w :
  eval (AsyncWorkCache.step (AsyncWorkCache.GetOrCompute c k f)) w =
    Some (eval (AsyncWorkCache.getOrCompute c k f) w) ∧
  exec (AsyncWorkCache.step (AsyncWorkCache.GetOrCompute c k f)) w =
    exec (AsyncWorkCache.getOrCompute c k f) w.
Proof. unfold AsyncWorkCache.step. by rewrite eval_bind, exec_bind, eval_ret, exec_ret. Qed.

Lemma allocatedCache_step w c op :
  AsyncWorkCache.allocatedCache w c → AsyncWorkCache.allocatedCache (exec (AsyncWorkCache.step op) w) c.
Proof. unfold AsyncWorkCache.allocatedCache. pose proof (nextLoc_step w op). lia. Qed.

Lemma op_is_getOrCompute_dec c k op :
  {f | op = AsyncWorkCache.GetOrCompute c k f} +
  {∀ f, op ≠ AsyncWorkCache.GetOrCompute c k f}.
Proof.
  destruct op as [c' k' f | | | | |]; try (right; intros; discriminate).
  destruct (decide (c' = c)) as [-> |]; [| right; intros ? ?; congruence].
  destruct (decide (k' = k)) as [-> |]; [| right; intros ? ?; congruence].
  left. by exists f.
Qed.

(** While nothing removes or replaces the entry of a key, every
    [getOrCompute] for the key returns that entry and no [compute] function
    is invoked for it. *)
Lemma run_hit ops : ∀ w c k p,
  AsyncWorkCache.allocatedCache w c →
  AsyncWorkCache.entriesOf w c !! k = Some p →
  AsyncWorkCache.keepsEntry c k ops = true →
  AsyncWorkCache.entriesOf (exec (AsyncWorkCache.run ops) w) c !! k = Some p ∧
  AsyncWorkCache.computeCount (exec (AsyncWorkCache.run ops) w) c k =
    AsyncWorkCache.computeCount w c k ∧
  (∀ i f, ops !! i = Some (AsyncWorkCache.GetOrCompute c k f) →
          eval (AsyncWorkCache.run ops) w !! i = Some (Some p)).
Proof.
  induction ops as [|op ops IH]; intros w c k p Hc Hp Hk.
  - by split_and!.
  - cbn in Hk. apply andb_true_iff in Hk as [[He Hr]%andb_true_iff Hk].
    apply negb_true_iff in He, Hr.
    destruct (run_cons op ops w) as [-> ->].
    destruct (op_is_getOrCompute_dec c k op) as [[f ->] | Hng].
    + destruct (step_getOrCompute c k f w) as [-> ->].
      unfold eval at 1, exec. rewrite (getOrCompute_hit w c k p f Hp). cbn [fst snd].
      destruct (IH w c k p Hc Hp Hk) as (H1 & H2 & H3).
      split_and!; try done. intros [|i] f' Hi; [done |]. by apply (H3 i f').
    + destruct (IH (exec (AsyncWorkCache.step op) w) c k p) as (H1 & H2 & H3); try done.
      * by apply allocatedCache_step.
      * by rewrite entriesOf_step_other.
      * rewrite computeCount_step_other in H2 by done.
        split_and!; try done. intros [|i] f' Hi; [| by apply (H3 i f')].
        simplify_eq/=. by destruct (Hng f').
Qed.

Lemma is_Some_entry_step w c k op :
  AsyncWorkCache.allocatedCache w c → AsyncWorkCache.evicts c k op = false →
  is_Some (AsyncWorkCache.entriesOf w c !! k) →
  is_Some (AsyncWorkCache.entriesOf (exec (AsyncWorkCache.step op) w) c !! k) ∧
  AsyncWorkCache.computeCount (exec (AsyncWorkCache.step op) w) c k =
    AsyncWorkCache.computeCount w c k.
Proof.
  intros Hc He [p Hp].
  destruct (op_is_getOrCompute_dec c k op) as [[f ->] | Hng].
  - destruct (step_getOrCompute c k f w) as [_ ->]. unfold exec.
    rewrite (getOrCompute_hit w c k p f Hp). cbn [snd]. by rewrite Hp.
  - rewrite computeCount_step_other by done. split; [| done].
    destruct (AsyncWorkCache.replaces c k op) eqn:Hr.
    + destruct op as [| c' k' v | | | |]; try done.
      apply bool_decide_eq_true in Hr as [-> ->].
      unfold AsyncWorkCache.step. rewrite exec_bind, exec_ret.
      unfold AsyncWorkCache.set, JsMap.set.
      rewrite entriesOf_update, decide_True, lookup_insert_eq by done. eauto.
    + rewrite entriesOf_step_other by done. eauto.
Qed.

Lemma run_count_hit ops : ∀ w c k,
  AsyncWorkCache.allocatedCache w c → AsyncWorkCache.keeps c k ops = true →
  is_Some (AsyncWorkCache.entriesOf w c !! k) →
  AsyncWorkCache.computeCount (exec (AsyncWorkCache.run ops) w) c k =
  AsyncWorkCache.computeCount w c k.
Proof.
  induction ops as [|op ops IH]; intros w c k Hc Hk Hp; [done |].
  cbn in Hk. apply andb_true_iff in Hk as [He%negb_true_iff Hk].
  destruct (run_cons op ops w) as [_ ->].
  destruct (is_Some_entry_step w c k op Hc He Hp) as [Hp' <-].
  apply IH; [by apply allocatedCache_step | done | done].
Qed.

(** Without [delete(k)] and [clear()], at most one [compute] function is
    invoked for the key. *)
Lemma run_count ops : ∀ w c k,
  AsyncWorkCache.allocatedCache w c → AsyncWorkCache.keeps c k ops = true →
  AsyncWorkCache.computeCount (exec (AsyncWorkCache.run ops) w) c k ≤
  S (AsyncWorkCache.computeCount w c k).
Proof.
  induction ops as [|op ops IH]; intros w c k Hc Hk; [cbn; lia |].
  destruct (AsyncWorkCache.entriesOf w c !! k) as [p|] eqn:Hp.
  { rewrite run_count_hit; eauto. }
  cbn in Hk. apply andb_true_iff in Hk as [He%negb_true_iff Hk].
  destruct (run_cons op ops w) as [_ ->].
  destruct (op_is_getOrCompute_dec c k op) as [[f ->] | Hng].
  - destruct (step_getOrCompute c k f w) as [_ ->].
    destruct (getOrCompute_miss w c k f Hp) as (_ & Hp' & _ & Hn).
    rewrite run_count_hit; [lia | | done | eauto].
    pose proof (allocatedCache_step w c (AsyncWorkCache.GetOrCompute c k f) Hc) as Hc'.
    by destruct (step_getOrCompute c k f w) as [_ <-].
  - rewrite <- (computeCount_step_other w c k op Hng).
    apply IH; [by apply allocatedCache_step | done].
Qed.

(** All callers of [getOrCompute] for a key receive the same promise, as
    long as nothing removes or replaces the entry. *)
Lemma run_same_promise ops : ∀ w c k,
  AsyncWorkCache.allocatedCache w c → AsyncWorkCache.keepsEntry c k ops = true →
  ∃ p, ∀ i f, ops !! i = Some (AsyncWorkCache.GetOrCompute c k f) →
              eval (AsyncWorkCache.run ops) w !! i = Some (Some p).
Proof.
  induction ops as [|op ops IH]; intros w c k Hc Hk.
  - exists (AsyncWorkCache.Computing 0). intros i f Hi. by rewrite lookup_nil in Hi.
  - destruct (op_is_getOrCompute_dec c k op) as [[f ->] | Hng].
    + destruct (AsyncWorkCache.entriesOf w c !! k) as [p|] eqn:Hp.
      * exists p. by apply run_hit.
      * cbn in Hk.
        destruct (getOrCompute_miss w c k f Hp) as (Hr & Hp' & _).
        exists (AsyncWorkCache.Computing (length (AsyncWorkCache.invocations w))).
        destruct (run_cons (AsyncWorkCache.GetOrCompute c k f) ops w) as [-> _].
        destruct (step_getOrCompute c k f w) as [-> ->]. rewrite Hr.
        intros [|i] f' Hi; [done |]. cbn.
        eapply run_hit; eauto.
        destruct (step_getOrCompute c k f w) as [_ <-]. by apply allocatedCache_step.
    + cbn in Hk. apply andb_true_iff in Hk as [_ Hk].
      destruct (IH (exec (AsyncWorkCache.step op) w) c k) as [p Hp];
        [by apply allocatedCache_step | done |].
      exists p. destruct (run_cons op ops w) as [-> _].
      intros [|i] f' Hi; [| by apply (Hp i f')].
      simplify_eq/=. by destruct (Hng f').
Qed.

Lemma outcomeOf_run ops : ∀ w p o,
  AsyncWorkCache.outcomeOf w p = Some o →
  AsyncWorkCache.outcomeOf (exec (AsyncWorkCache.run ops) w) p = Some o.
Proof.
  induction ops as [|op ops IH]; intros w p o Ho; [done |].
  destruct (run_cons op ops w) as [_ ->]. by apply IH, outcomeOf_step.
Qed.
End AsyncWorkCacheFacts.

(** ** Store operations of the analysis cache *)
Section HeapFacts.
Context {ParsedDocument ScannedDocument Document : Type}.
Import AnalysisCache.
Abbreviation Heap' := (Heap ParsedDocument ScannedDocument Document).
Implicit Types (h : Heap') (c nc this : AnalysisCache.t) (l : loc).

Lemma delete_updateCache l k :
  (onWork (AsyncWorkCache.delete l k) : State Heap' unit) = updateCache l (delete k).
Proof. done. Qed.

Lemma clear_updateCache l :
  (onWork (AsyncWorkCache.clear l) : State Heap' unit) = updateCache l (λ _, ∅).
Proof. done. Qed.

Lemma set_updateCache l k v :
  (onWork (AsyncWorkCache.set l k v) : State Heap' unit) =
  updateCache l (<[k := AsyncWorkCache.Resolved v]>).
Proof. done. Qed.

Lemma delete_updateScanned l k :
  (onScanned (JsMap.delete l k) : State Heap' unit) = updateScanned l (delete k).
Proof. done. Qed.

Lemma delete_updateAnalyzed l k :
  (onAnalyzed (JsMap.delete l k) : State Heap' unit) = updateAnalyzed l (delete k).
Proof. done. Qed.

Lemma cacheAt_updateCache h l f l' :
  cacheAt (exec (updateCache l f) h) l' =
  if decide (l' = l) then f (cacheAt h l) else cacheAt h l'.
Proof. apply (contentsOf_update (AsyncWorkCache.maps (work h))). Qed.

Lemma cacheAt_updateScanned h l f l' :
  cacheAt (exec (updateScanned l f) h) l' = cacheAt h l'.
Proof. done. Qed.

Lemma cacheAt_updateAnalyzed h l f l' :
  cacheAt (exec (updateAnalyzed l f) h) l' = cacheAt h l'.
Proof. done. Qed.

Lemma scannedStore_updateCache h l f :
  scannedStore (exec (updateCache l f) h) = scannedStore h.
Proof. done. Qed.

Lemma scannedStore_updateAnalyzed h l f :
  scannedStore (exec (updateAnalyzed l f) h) = scannedStore h.
Proof. done. Qed.

Lemma analyzedStore_updateCache h l f :
  analyzedStore (exec (updateCache l f) h) = analyzedStore h.
Proof. done. Qed.

Lemma analyzedStore_updateScanned h l f :
  analyzedStore (exec (updateScanned l f) h) = analyzedStore h.
Proof. done. Qed.

Lemma scannedStore_updateScanned h l f :
  scannedStore (exec (updateScanned l f) h) = exec (JsMap.update l f) (scannedStore h).
Proof. done. Qed.

Lemma analyzedStore_updateAnalyzed h l f :
  analyzedStore (exec (updateAnalyzed l f) h) = exec (JsMap.update l f) (analyzedStore h).
Proof. done. Qed.

Lemma parsed_cacheLocs c : parsedDocumentPromises c ∈ cacheLocs c.
Proof. unfold cacheLocs. set_solver. Qed.

Lemma scanned_cacheLocs c : scannedDocumentPromises c ∈ cacheLocs c.
Proof. unfold cacheLocs. set_solver. Qed.

Lemma dependenciesScanned_cacheLocs c : dependenciesScannedPromises c ∈ cacheLocs c.
Proof. unfold cacheLocs. set_solver. Qed.

Lemma analyzed_cacheLocs c : analyzedDocumentPromises c ∈ cacheLocs c.
Proof. unfold cacheLocs. set_solver. Qed.

Lemma modifiesOnly_refl c h : modifiesOnly c h h.
Proof. by repeat split. Qed.

Lemma modifiesOnly_trans c h1 h2 h3 :
  modifiesOnly c h1 h2 → modifiesOnly c h2 h3 → modifiesOnly c h1 h3.
Proof.
  intros (?&?&?&?&HW&HS&HA&HW'&HS'&HA') (?&?&?&?&HW2&HS2&HA2&HW2'&HS2'&HA2').
  repeat split; try congruence; intros l Hl.
  - by rewrite HW2, HW.
  - by rewrite HS2, HS.
  - by rewrite HA2, HA.
  - auto.
  - auto.
  - auto.
Qed.

Lemma modifiesOnly_updateCache c h l f :
  l ∈ cacheLocs c → modifiesOnly c h (exec (updateCache l f) h).
Proof.
  intros Hl. repeat split; try done.
  - intros l' Hl'. apply (objects_update_ne (AsyncWorkCache.maps (work h))).
    by intros ->.
  - intros l'. apply (objects_update_is_Some (AsyncWorkCache.maps (work h))).
Qed.

Lemma modifiesOnly_updateScanned c h f :
  modifiesOnly c h (exec (updateScanned (scannedDocuments c) f) h).
Proof.
  repeat split; try done.
  - intros l' Hl'. by apply (objects_update_ne (scannedStore h)).
  - intros l'. apply (objects_update_is_Some (scannedStore h)).
Qed.

Lemma modifiesOnly_updateAnalyzed c h f :
  modifiesOnly c h (exec (updateAnalyzed (analyzedDocuments c) f) h).
Proof.
  repeat split; try done.
  - intros l' Hl'. by apply (objects_update_ne (analyzedStore h)).
  - intros l'. apply (objects_update_is_Some (analyzedStore h)).
Qed.

Lemma publishedAnalyzed_updateAnalyzed h c l f :
  publishedAnalyzed (exec (updateAnalyzed l f) h) c =
  if decide (analyzedDocuments c = l) then f (JsMap.contentsOf (analyzedStore h) l)
  else publishedAnalyzed h c.
Proof. apply (contentsOf_update (analyzedStore h)). Qed.

Lemma publishedScanned_updateScanned h c l f :
  publishedScanned (exec (updateScanned l f) h) c =
  if decide (scannedDocuments c = l) then f (JsMap.contentsOf (scannedStore h) l)
  else publishedScanned h c.
Proof. apply (contentsOf_update (scannedStore h)). Qed.

Lemma publishedAnalyzed_updateCache h c l f :
  publishedAnalyzed (exec (updateCache l f) h) c = publishedAnalyzed h c.
Proof. done. Qed.

Lemma publishedAnalyzed_updateScanned h c l f :
  publishedAnalyzed (exec (updateScanned l f) h) c = publishedAnalyzed h c.
Proof. done. Qed.

Lemma publishedScanned_updateCache h c l f :
  publishedScanned (exec (updateCache l f) h) c = publishedScanned h c.
Proof. done. Qed.

Lemma publishedScanned_updateAnalyzed h c l f :
  publishedScanned (exec (updateAnalyzed l f) h) c = publishedScanned h c.
Proof. done. Qed.

(** The loop over the dependants of one path. *)
Lemma dependants_loop nc (ds : list string) h :
  let h' := exec (forEach ds (λ d,
               onWork (AsyncWorkCache.delete (dependenciesScannedPromises nc) d);;
               onAnalyzed (JsMap.delete (analyzedDocuments nc) d))) h in
  (∀ l, cacheAt h' l =
        if decide (l = dependenciesScannedPromises nc)
        then foldl (λ m k, delete k m) (cacheAt h l) ds else cacheAt h l) ∧
  publishedAnalyzed h' nc = foldl (λ m k, delete k m) (publishedAnalyzed h nc) ds ∧
  publishedScanned h' nc = publishedScanned h nc ∧
  modifiesOnly nc h h'.
Proof.
  revert h. induction ds as [|d ds IH]; intros h; cbn [forEach foldl].
  - rewrite exec_ret.
    split_and!; [intros l; by case_decide | done .. | apply modifiesOnly_refl].
  - rewrite exec_bind, exec_bind.
    destruct (IH (exec (onAnalyzed (JsMap.delete (analyzedDocuments nc) d))
                    (exec (onWork (AsyncWorkCache.delete
                                     (dependenciesScannedPromises nc) d)) h)))
      as (Hc & Ha & Hs & Hm).
    rewrite delete_updateCache, delete_updateAnalyzed in Hc, Ha, Hs, Hm.
    rewrite delete_updateCache, delete_updateAnalyzed.
    split_and!.
    + intros l. rewrite Hc, cacheAt_updateAnalyzed, cacheAt_updateCache.
      case_decide; [by subst | done].
    + rewrite Ha, publishedAnalyzed_updateAnalyzed, decide_True by done.
      done.
    + by rewrite Hs.
    + eapply modifiesOnly_trans; [| eapply modifiesOnly_trans; [| exact Hm]].
      * apply modifiesOnly_updateCache, dependenciesScanned_cacheLocs.
      * apply modifiesOnly_updateAnalyzed.
Qed.

(** Copying the entries of a [Map] one after the other into an empty
    container gives the image of the [Map]. *)
Lemma lookup_foldl_insert {A B} (g : A → B) (kvs : list (string * A))
    (acc : gmap string B) (k : string) :
  NoDup kvs.*1 →
  foldl (λ m (kv : string * A), <[kv.1 := g kv.2]> m) acc kvs !! k =
  match (list_to_map kvs : gmap string A) !! k with
  | Some v => Some (g v)
  | None => acc !! k
  end.
Proof.
  revert acc. induction kvs as [|[k0 v0] kvs IH]; intros acc Hnd; cbn [foldl].
  - unfold list_to_map; cbn. by rewrite lookup_empty.
  - rewrite fmap_cons in Hnd. apply NoDup_cons in Hnd as [Hk0 Hnd].
    cbn [fst] in Hk0. rewrite IH by done.
    rewrite list_to_map_cons. cbn [fst snd].
    destruct (decide (k = k0)) as [-> | Hne].
    + rewrite (not_elem_of_list_to_map_1 kvs k0) by done.
      by rewrite !lookup_insert_eq.
    + rewrite (lookup_insert_ne (list_to_map kvs)) by done.
      destruct (list_to_map kvs !! k); [done |]. by rewrite lookup_insert_ne.
Qed.

Lemma foldl_insert_map_to_list {A B} (g : A → B) (m : gmap string A) :
  foldl (λ acc (kv : string * A), <[kv.1 := g kv.2]> acc) ∅ (map_to_list m) = g <$> m.
Proof.
  apply map_eq; intros k.
  rewrite lookup_foldl_insert by apply NoDup_fst_map_to_list.
  rewrite list_to_map_to_list, lookup_fmap. by destruct (m !! k).
Qed.

(** Clearing the analyzed work cache and re-seeding it from the published
    analyzed documents. *)
Lemma reseed_loop nc (kvs : list (string * Document)) h :
  let h' := exec (forEach kvs (λ kv,
               onWork (AsyncWorkCache.set (analyzedDocumentPromises nc)
                         kv.1 (AnalyzedP kv.2)))) h in
  (∀ l, cacheAt h' l =
        if decide (l = analyzedDocumentPromises nc)
        then foldl (λ m (kv : string * Document), <[kv.1 := resolvedDocument kv.2]> m)
               (cacheAt h l) kvs
        else cacheAt h l) ∧
  scannedStore h' = scannedStore h ∧ analyzedStore h' = analyzedStore h ∧
  modifiesOnly nc h h'.
Proof.
  revert h. induction kvs as [|kv kvs IH]; intros h; cbn [forEach foldl].
  - rewrite exec_ret.
    split_and!; [intros l; by case_decide | done .. | apply modifiesOnly_refl].
  - rewrite exec_bind.
    destruct (IH (exec (onWork (AsyncWorkCache.set (analyzedDocumentPromises nc)
                                 kv.1 (AnalyzedP kv.2))) h)) as (Hc & Hs & Ha & Hm).
    rewrite set_updateCache in Hc, Hs, Ha, Hm. rewrite set_updateCache.
    split_and!.
    + intros l. rewrite Hc, cacheAt_updateCache. case_decide; [by subst | done].
    + by rewrite Hs.
    + by rewrite Ha.
    + eapply modifiesOnly_trans; [| exact Hm].
      apply modifiesOnly_updateCache, analyzed_cacheLocs.
Qed.

Lemma exec_entries h l : exec (onAnalyzed (JsMap.entries l)) h = h.
Proof. by destruct h. Qed.

Lemma eval_entries h l :
  eval (onAnalyzed (JsMap.entries l)) h = map_to_list (JsMap.contentsOf (analyzedStore h) l).
Proof. done. Qed.

Lemma cacheLocs_distinct c :
  NoDup (cacheLocs c) →
  parsedDocumentPromises c ≠ scannedDocumentPromises c ∧
  parsedDocumentPromises c ≠ dependenciesScannedPromises c ∧
  parsedDocumentPromises c ≠ analyzedDocumentPromises c ∧
  scannedDocumentPromises c ≠ dependenciesScannedPromises c ∧
  scannedDocumentPromises c ≠ analyzedDocumentPromises c ∧
  dependenciesScannedPromises c ≠ analyzedDocumentPromises c.
Proof.
  unfold cacheLocs. rewrite !NoDup_cons, !not_elem_of_cons.
  intros ((?&?&?&_)&(?&?&_)&(?&_)&_). done.
Qed.

(** What one round of the loop of [invalidate] does to the fork. *)
Lemma invalidatePath_effect this nc path h :
  NoDup (cacheLocs nc) →
  let ds := elements (DependencyGraph.getAllDependantsOf (dependencyGraph this) path) in
  let h' := exec (invalidatePath this nc path) h in
  parsedCache h' nc = delete path (parsedCache h nc) ∧
  scannedCache h' nc = delete path (scannedCache h nc) ∧
  dependenciesScannedCache h' nc =
    foldl (λ m k, delete k m) (delete path (dependenciesScannedCache h nc)) ds ∧
  publishedScanned h' nc = delete path (publishedScanned h nc) ∧
  publishedAnalyzed h' nc =
    foldl (λ m k, delete k m) (delete path (publishedAnalyzed h nc)) ds ∧
  analyzedCache h' nc = resolvedDocument <$> publishedAnalyzed h' nc ∧
  modifiesOnly nc h h'.
Proof.
  intros (Hps & Hpd & Hpa & Hsd & Hsa & Hda)%cacheLocs_distinct ds h'.
  subst h'. unfold invalidatePath. fold ds. rewrite !exec_bind.
  rewrite exec_entries, eval_entries.
  match goal with
  | |- context [exec (forEach ds _) ?h0] =>
      set (h5 := h0); destruct (dependants_loop nc ds h5) as (Hc6 & Ha6 & Hs6 & Hm6);
      set (h6 := exec (forEach ds _) h5) in *
  end.
  set (h7 := exec (onWork (AsyncWorkCache.clear (analyzedDocumentPromises nc))) h6).
  destruct (reseed_loop nc (map_to_list (JsMap.contentsOf (analyzedStore h7)
                                          (analyzedDocuments nc))) h7)
    as (Hc8 & Hs8 & Ha8 & Hm8).
  match type of Hm8 with modifiesOnly _ _ ?h0 => set (h8 := h0) in * end.
  assert (Hh5 : ∀ l, cacheAt h5 l =
              if decide (l = dependenciesScannedPromises nc) then delete path (cacheAt h l)
              else if decide (l = scannedDocumentPromises nc) then delete path (cacheAt h l)
              else if decide (l = parsedDocumentPromises nc) then delete path (cacheAt h l)
              else cacheAt h l).
  { intros l. subst h5.
    rewrite !delete_updateCache, delete_updateScanned, delete_updateAnalyzed.
    rewrite cacheAt_updateAnalyzed, cacheAt_updateScanned, !cacheAt_updateCache.
    repeat case_decide; simplify_eq; try done. }
  assert (Hh7 : ∀ l, cacheAt h7 l =
              if decide (l = analyzedDocumentPromises nc) then ∅ else cacheAt h6 l).
  { intros l. subst h7. by rewrite clear_updateCache, cacheAt_updateCache. }
  assert (Hpub8 : publishedAnalyzed h8 nc = publishedAnalyzed h6 nc).
  { unfold publishedAnalyzed. by rewrite Ha8. }
  split_and!.
  - unfold parsedCache. rewrite Hc8, decide_False, Hh7, decide_False, Hc6,
      decide_False, Hh5 by done.
    by rewrite !decide_False, decide_True by done.
  - unfold scannedCache. rewrite Hc8, decide_False, Hh7, decide_False, Hc6,
      decide_False, Hh5 by done.
    by rewrite decide_False, decide_True by done.
  - unfold dependenciesScannedCache. rewrite Hc8, decide_False, Hh7, decide_False, Hc6,
      decide_True, Hh5 by done.
    by rewrite decide_True by done.
  - unfold publishedScanned in *. rewrite Hs8. subst h7.
    rewrite clear_updateCache, scannedStore_updateCache, Hs6. subst h5.
    rewrite !delete_updateCache, delete_updateScanned, delete_updateAnalyzed.
    rewrite scannedStore_updateAnalyzed, scannedStore_updateScanned, contentsOf_update.
    by rewrite decide_True by done.
  - rewrite Hpub8, Ha6. subst h5.
    rewrite !delete_updateCache, delete_updateScanned, delete_updateAnalyzed.
    by rewrite publishedAnalyzed_updateAnalyzed, decide_True by done.
  - rewrite Hpub8. unfold analyzedCache. rewrite Hc8, decide_True, Hh7, decide_True by done.
    rewrite (foldl_insert_map_to_list resolvedDocument). done.
  - subst h8 h7 h6 h5.
    rewrite clear_updateCache, !delete_updateCache, delete_updateScanned,
      delete_updateAnalyzed in *.
    repeat (eapply modifiesOnly_trans; [| first [exact Hm8 | exact Hm6
      | apply modifiesOnly_updateCache, analyzed_cacheLocs
      | apply modifiesOnly_updateAnalyzed
      | apply modifiesOnly_updateScanned
      | apply modifiesOnly_updateCache, dependenciesScanned_cacheLocs
      | apply modifiesOnly_updateCache, scanned_cacheLocs ]]).
    apply modifiesOnly_updateCache, parsed_cacheLocs.
Qed.

Lemma elem_of_staleIds g (paths : list string) k :
  k ∈ staleIds g paths ↔
  k ∈ paths ∨ ∃ p, p ∈ paths ∧ k ∈ DependencyGraph.getAllDependantsOf g p.
Proof.
  unfold staleIds. rewrite elem_of_union, elem_of_list_to_set, elem_of_union_list.
  apply or_iff_compat_l. split.
  - intros (X & (p & -> & Hp)%list_elem_of_fmap & Hk). eauto.
  - intros (p & Hp & Hk). exists (DependencyGraph.getAllDependantsOf g p).
    split; [| done]. apply list_elem_of_fmap. eauto.
Qed.

Lemma staleIds_cons g p (paths : list string) k :
  k ∈ staleIds g (p :: paths) ↔
  k = p ∨ k ∈ DependencyGraph.getAllDependantsOf g p ∨ k ∈ staleIds g paths.
Proof.
  rewrite !elem_of_staleIds. setoid_rewrite elem_of_cons. naive_solver.
Qed.

(** A loop of rounds over [paths]. *)
Lemma rounds_effect this nc (body : string → State Heap' unit) (paths : list string) h :
  (∀ p h0, roundEffect this nc p h0 (exec (body p) h0)) →
  let h' := exec (forEach paths body) h in
  let stale := staleIds (dependencyGraph this) paths in
  (∀ k, parsedCache h' nc !! k = if decide (k ∈ paths) then None else parsedCache h nc !! k) ∧
  (∀ k, scannedCache h' nc !! k =
        if decide (k ∈ paths) then None else scannedCache h nc !! k) ∧
  (∀ k, dependenciesScannedCache h' nc !! k =
        if decide (k ∈ stale) then None else dependenciesScannedCache h nc !! k) ∧
  (∀ k, publishedScanned h' nc !! k =
        if decide (k ∈ paths) then None else publishedScanned h nc !! k) ∧
  (∀ k, publishedAnalyzed h' nc !! k =
        if decide (k ∈ stale) then None else publishedAnalyzed h nc !! k) ∧
  modifiesOnly nc h h'.
Proof.
  intros Hbody. revert h. induction paths as [|p paths IH]; intros h; cbn [forEach].
  - rewrite exec_ret. cbn zeta.
    split_and!; try done; try apply modifiesOnly_refl; intros k.
    all: destruct (decide _) as [Hin | _]; [exfalso | done].
    all: try (by apply elem_of_nil in Hin).
    all: apply elem_of_staleIds in Hin as [Hin | (? & Hin & _)]; by apply elem_of_nil in Hin.
  - rewrite exec_bind. cbn zeta.
    destruct (Hbody p h) as (Hp1 & Hs1 & Hd1 & Hps1 & Hpa1 & Hm1).
    destruct (IH (exec (body p) h)) as (Hp & Hs & Hd & Hps & Hpa & Hm).
    clear IH. unfold parsedCache, scannedCache, dependenciesScannedCache,
      publishedScanned, publishedAnalyzed in *. split_and!.
    + intros k. rewrite Hp, Hp1.
      destruct (decide (k ∈ paths)), (decide (k ∈ p :: paths)) as [Hin | Hin]; try done.
      * exfalso. apply Hin. by right.
      * apply elem_of_cons in Hin as [-> | ?]; [apply lookup_delete_eq | done].
      * apply lookup_delete_ne. intros ->. apply Hin. by left.
    + intros k. rewrite Hs, Hs1.
      destruct (decide (k ∈ paths)), (decide (k ∈ p :: paths)) as [Hin | Hin]; try done.
      * exfalso. apply Hin. by right.
      * apply elem_of_cons in Hin as [-> | ?]; [apply lookup_delete_eq | done].
      * apply lookup_delete_ne. intros ->. apply Hin. by left.
    + intros k. rewrite Hd, Hd1, lookup_foldl_delete.
      destruct (decide (k ∈ staleIds _ paths)) as [Hin | Hin],
               (decide (k ∈ staleIds _ (p :: paths))) as [Hin' | Hin']; try done.
      * exfalso. apply Hin'. apply staleIds_cons. auto.
      * apply staleIds_cons in Hin' as [-> | [? | ?]]; [| | done].
        -- case_decide; [done | apply lookup_delete_eq].
        -- rewrite decide_True; [done | by apply elem_of_elements].
      * rewrite decide_False, lookup_delete_ne; [done | |].
        -- intros ->. apply Hin', staleIds_cons. auto.
        -- intros ?%elem_of_elements. apply Hin', staleIds_cons. auto.
    + intros k. rewrite Hps, Hps1.
      destruct (decide (k ∈ paths)), (decide (k ∈ p :: paths)) as [Hin | Hin]; try done.
      * exfalso. apply Hin. by right.
      * apply elem_of_cons in Hin as [-> | ?]; [apply lookup_delete_eq | done].
      * apply lookup_delete_ne. intros ->. apply Hin. by left.
    + intros k. rewrite Hpa, Hpa1, lookup_foldl_delete.
      destruct (decide (k ∈ staleIds _ paths)) as [Hin | Hin],
               (decide (k ∈ staleIds _ (p :: paths))) as [Hin' | Hin']; try done.
      * exfalso. apply Hin'. apply staleIds_cons. auto.
      * apply staleIds_cons in Hin' as [-> | [? | ?]]; [| | done].
        -- case_decide; [done | apply lookup_delete_eq].
        -- rewrite decide_True; [done | by apply elem_of_elements].
      * rewrite decide_False, lookup_delete_ne; [done | |].
        -- intros ->. apply Hin', staleIds_cons. auto.
        -- intros ?%elem_of_elements. apply Hin', staleIds_cons. auto.
    + by eapply modifiesOnly_trans.
Qed.

Lemma invalidatePath_round this nc path h :
  NoDup (cacheLocs nc) → roundEffect this nc path h (exec (invalidatePath this nc path) h).
Proof.
  intros Hnd.
  destruct (invalidatePath_effect this nc path h Hnd) as (? & ? & ? & ? & ? & _ & ?).
  unfold roundEffect. split_and!; assumption.
Qed.

(** After a loop of [invalidate] that ran at least once, the analyzed work
    cache is the image of the published analyzed documents. *)
Lemma invalidate_loop_analyzed this nc (paths : list string) h :
  NoDup (cacheLocs nc) → paths ≠ [] →
  let h' := exec (forEach paths (invalidatePath this nc)) h in
  analyzedCache h' nc = resolvedDocument <$> publishedAnalyzed h' nc.
Proof.
  intros Hnd. revert h. induction paths as [|p paths IH]; intros h Hne; [done |].
  cbn [forEach]. cbn zeta. rewrite exec_bind.
  destruct paths as [|p' paths].
  - cbn [forEach]. rewrite exec_ret.
    by destruct (invalidatePath_effect this nc p h Hnd) as (_ & _ & _ & _ & _ & ? & _).
  - by apply IH.
Qed.

(** The whole loop of [invalidate] over [documentPaths]. *)
Lemma invalidate_loop this nc (paths : list string) h :
  NoDup (cacheLocs nc) →
  let h' := exec (forEach paths (invalidatePath this nc)) h in
  let stale := staleIds (dependencyGraph this) paths in
  (∀ k, parsedCache h' nc !! k = if decide (k ∈ paths) then None else parsedCache h nc !! k) ∧
  (∀ k, scannedCache h' nc !! k =
        if decide (k ∈ paths) then None else scannedCache h nc !! k) ∧
  (∀ k, dependenciesScannedCache h' nc !! k =
        if decide (k ∈ stale) then None else dependenciesScannedCache h nc !! k) ∧
  (∀ k, publishedScanned h' nc !! k =
        if decide (k ∈ paths) then None else publishedScanned h nc !! k) ∧
  (∀ k, publishedAnalyzed h' nc !! k =
        if decide (k ∈ stale) then None else publishedAnalyzed h nc !! k) ∧
  (paths ≠ [] → analyzedCache h' nc = resolvedDocument <$> publishedAnalyzed h' nc) ∧
  (paths = [] → h' = h) ∧
  modifiesOnly nc h h'.
Proof.
  intros Hnd h' stale.
  destruct (rounds_effect this nc (invalidatePath this nc) paths h
              (λ p h0, invalidatePath_round this nc p h0 Hnd))
    as (? & ? & ? & ? & ? & ?).
  split_and!; try done.
  - intros Hne. by apply invalidate_loop_analyzed.
  - by intros ->.
Qed.

Lemma freshIn_NoDup h h1 nc : freshIn h h1 nc → NoDup (cacheLocs nc).
Proof.
  intros (Hp & Hs & Ha & Hd & _). unfold cacheLocs. rewrite Hp, Hs, Ha, Hd.
  rewrite !NoDup_cons, !not_elem_of_cons.
  split_and!; try lia; try apply not_elem_of_nil. apply NoDup_nil_2.
Qed.

(** The copy constructor: the fork holds copies of the six containers of
    the receiver and the graph that was passed in. *)
Lemma constructor_effect h this g :
  allocated h this →
  let nc := eval (constructor (Some this) (Some g)) h in
  let h1 := exec (constructor (Some this) (Some g)) h in
  freshIn h h1 nc ∧ preserves h h1 ∧
  dependencyGraph nc = g ∧
  parsedCache h1 nc = parsedCache h this ∧
  scannedCache h1 nc = scannedCache h this ∧
  dependenciesScannedCache h1 nc = dependenciesScannedCache h this ∧
  analyzedCache h1 nc = analyzedCache h this ∧
  publishedScanned h1 nc = publishedScanned h this ∧
  publishedAnalyzed h1 nc = publishedAnalyzed h this.
Proof.
  intros Halloc nc h1. subst nc h1.
  destruct h as [[[wo wn] inv] [so sn] [ao an]].
  destruct this as [tp ts td ta tsd tad tg].
  unfold allocated in Halloc; cbn in Halloc.
  destruct Halloc as (Hp & Hs & Hd & Ha & Hsd & Had).
  unfold freshIn, preserves, parsedCache, scannedCache, dependenciesScannedCache,
    analyzedCache, publishedScanned, publishedAnalyzed, cacheAt, cacheLocs,
    AsyncWorkCache.entriesOf, JsMap.contentsOf.
  cbv beta iota zeta delta
    [eval exec constructor mbind mret state_bind state_ret onWork onScanned onAnalyzed
     zoom AsyncWorkCache.new AsyncWorkCache.onMaps JsMap.new JsMap.alloc fmap option_fmap
     option_map work scannedStore analyzedStore AsyncWorkCache.maps
     AsyncWorkCache.invocations JsMap.objects JsMap.nextLoc parsedDocumentPromises
     scannedDocumentPromises dependenciesScannedPromises analyzedDocumentPromises
     scannedDocuments analyzedDocuments dependencyGraph fst snd].
  all: repeat match goal with |- _ ∧ _ => split end; try done.
  all: try (intros l Hl).
  all: try (rewrite !elem_of_cons, elem_of_nil in Hl;
            destruct Hl as [-> | [-> | [-> | [-> | []]]]]).
  all: repeat (progress (unfold JsMap.contentsOf; cbn [default JsMap.objects];
               repeat first [rewrite lookup_insert_eq | rewrite lookup_insert_ne by lia])).
  all: by eauto.
Qed.

Lemma invalidate_run this (paths : list string) h :
  let c := constructor (Some this)
             (Some (DependencyGraph.invalidatePaths (dependencyGraph this) paths)) in
  eval (invalidate this paths) h = eval c h ∧
  exec (invalidate this paths) h =
    exec (forEach paths (invalidatePath this (eval c h))) (exec c h).
Proof.
  unfold invalidate. cbn zeta.
  by rewrite !eval_bind, !exec_bind, eval_ret, exec_ret.
Qed.

Lemma preserves_modifiesOnly h h1 h' nc :
  freshIn h h1 nc → preserves h h1 → modifiesOnly nc h1 h' →
  preserves h h' ∧ freshIn h h' nc.
Proof.
  intros (Hp & Hs & Ha & Hd & Hsd & Had & HaW & HaS & HaA & HnW & HnS & HnA)
         (HpW & HpS & HpA & Hinv)
         (HmnW & HmnS & HmnA & Hminv & HmW & HmS & HmA & HsW & HsS & HsA).
  split; [split_and! | unfold freshIn; split_and!]; try done; try congruence; eauto.
  - intros l Hl. rewrite HmW, HpW; [done | done |].
    unfold cacheLocs. rewrite Hp, Hs, Ha, Hd, !not_elem_of_cons.
    split_and!; try lia. apply not_elem_of_nil.
  - intros l Hl. rewrite HmS, HpS; [done | done | lia].
  - intros l Hl. rewrite HmA, HpA; [done | done | lia].
Qed.

(** The effect of [invalidate]: what the returned snapshot holds, in terms of
    what the receiver held, and what happens to the rest of the store. *)
Lemma invalidate_effect h this (paths : list string) :
  allocated h this →
  let nc := eval (invalidate this paths) h in
  let h' := exec (invalidate this paths) h in
  let stale := staleIds (dependencyGraph this) paths in
  dependencyGraph nc = DependencyGraph.invalidatePaths (dependencyGraph this) paths ∧
  (∀ k, parsedCache h' nc !! k =
        if decide (k ∈ paths) then None else parsedCache h this !! k) ∧
  (∀ k, scannedCache h' nc !! k =
        if decide (k ∈ paths) then None else scannedCache h this !! k) ∧
  (∀ k, dependenciesScannedCache h' nc !! k =
        if decide (k ∈ stale) then None else dependenciesScannedCache h this !! k) ∧
  (∀ k, publishedScanned h' nc !! k =
        if decide (k ∈ paths) then None else publishedScanned h this !! k) ∧
  (∀ k, publishedAnalyzed h' nc !! k =
        if decide (k ∈ stale) then None else publishedAnalyzed h this !! k) ∧
  (paths ≠ [] → analyzedCache h' nc = resolvedDocument <$> publishedAnalyzed h' nc) ∧
  (paths = [] → analyzedCache h' nc = analyzedCache h this) ∧
  preserves h h' ∧ freshIn h h' nc.
Proof.
  intros Halloc nc h' stale. subst nc h' stale.
  destruct (invalidate_run this paths h) as [-> ->].
  destruct (constructor_effect h this
              (DependencyGraph.invalidatePaths (dependencyGraph this) paths) Halloc)
    as (Hfresh & Hpres & Hg & Hp1 & Hs1 & Hd1 & Ha1 & Hps1 & Hpa1).
  set (c := constructor (Some this)
              (Some (DependencyGraph.invalidatePaths (dependencyGraph this) paths))) in *.
  destruct (invalidate_loop this (eval c h) paths (exec c h)
              (freshIn_NoDup _ _ _ Hfresh))
    as (Hp & Hs & Hd & Hps & Hpa & Ha & He & Hm).
  destruct (preserves_modifiesOnly _ _ _ _ Hfresh Hpres Hm) as [Hpres' Hfresh'].
  split_and!; try done.
  - intros k. by rewrite Hp, Hp1.
  - intros k. by rewrite Hs, Hs1.
  - intros k. by rewrite Hd, Hd1.
  - intros k. by rewrite Hps, Hps1.
  - intros k. by rewrite Hpa, Hpa1.
  - intros Hnil. by rewrite (He Hnil).
Qed.

(** *** The algorithm of the specification *)

Lemma spec_dependants_loop nc (ds : list string) h :
  dependenciesScannedPromises nc ≠ analyzedDocumentPromises nc →
  let h' := exec (forEach ds (λ d,
               onWork (AsyncWorkCache.delete (dependenciesScannedPromises nc) d);;
               onAnalyzed (JsMap.delete (analyzedDocuments nc) d);;
               onWork (AsyncWorkCache.delete (analyzedDocumentPromises nc) d))) h in
  (∀ l, l ≠ analyzedDocumentPromises nc →
        cacheAt h' l =
        if decide (l = dependenciesScannedPromises nc)
        then foldl (λ m k, delete k m) (cacheAt h l) ds else cacheAt h l) ∧
  publishedAnalyzed h' nc = foldl (λ m k, delete k m) (publishedAnalyzed h nc) ds ∧
  publishedScanned h' nc = publishedScanned h nc ∧
  modifiesOnly nc h h'.
Proof.
  intros Hda. revert h. induction ds as [|d ds IH]; intros h; cbn [forEach foldl].
  - rewrite exec_ret.
    split_and!; [intros l _; by case_decide | done .. | apply modifiesOnly_refl].
  - rewrite !exec_bind.
    match goal with
    | |- context [exec (forEach ds _) ?h0] =>
        destruct (IH h0) as (Hc & Ha & Hs & Hm)
    end.
    rewrite !delete_updateCache, delete_updateAnalyzed in Hc, Ha, Hs, Hm.
    rewrite !delete_updateCache, delete_updateAnalyzed.
    split_and!.
    + intros l Hl. rewrite Hc by done.
      rewrite (cacheAt_updateCache _ (analyzedDocumentPromises nc)).
      rewrite (decide_False (P := l = analyzedDocumentPromises nc)) by done.
      rewrite cacheAt_updateAnalyzed, cacheAt_updateCache.
      case_decide; [by subst | done].
    + rewrite Ha, publishedAnalyzed_updateCache, publishedAnalyzed_updateAnalyzed,
        decide_True by done.
      done.
    + by rewrite Hs.
    + repeat (eapply modifiesOnly_trans; [| first [exact Hm
        | apply modifiesOnly_updateCache, analyzed_cacheLocs
        | apply modifiesOnly_updateAnalyzed ]]).
      apply modifiesOnly_updateCache, dependenciesScanned_cacheLocs.
Qed.

Lemma specStep3_round this nc id h :
  NoDup (cacheLocs nc) → roundEffect this nc id h (exec (specStep3 this nc id) h).
Proof.
  intros Hnd. pose proof Hnd as (Hps & Hpd & Hpa & Hsd & Hsa & Hda)%cacheLocs_distinct.
  unfold specStep3, roundEffect. cbn zeta.
  set (ds := elements (DependencyGraph.getAllDependantsOf (dependencyGraph this) id)).
  rewrite !exec_bind.
  match goal with
  | |- context [exec (forEach ds _) ?h0] =>
      set (h6 := h0); destruct (spec_dependants_loop nc ds h6 Hda) as (Hc & Ha & Hs & Hm);
      set (h7 := exec (forEach ds _) h6) in *
  end.
  unfold publishedAnalyzed, publishedScanned in Ha, Hs.
  subst h6. rewrite !delete_updateCache, delete_updateScanned, delete_updateAnalyzed in *.
  split_and!.
  - rewrite Hc by done.
    rewrite cacheAt_updateAnalyzed, cacheAt_updateScanned, !cacheAt_updateCache.
    repeat case_decide; first [done | congruence].
  - rewrite Hc by done.
    rewrite cacheAt_updateAnalyzed, cacheAt_updateScanned, !cacheAt_updateCache.
    repeat case_decide; first [done | congruence].
  - rewrite Hc by done.
    rewrite cacheAt_updateAnalyzed, cacheAt_updateScanned, !cacheAt_updateCache.
    repeat case_decide; first [done | congruence].
  - rewrite Hs, scannedStore_updateAnalyzed, scannedStore_updateScanned, contentsOf_update.
    by rewrite decide_True.
  - rewrite Ha, analyzedStore_updateAnalyzed, contentsOf_update.
    by rewrite decide_True.
  - repeat (eapply modifiesOnly_trans; [| first [exact Hm
      | apply modifiesOnly_updateAnalyzed
      | apply modifiesOnly_updateScanned
      | apply modifiesOnly_updateCache, analyzed_cacheLocs
      | apply modifiesOnly_updateCache, dependenciesScanned_cacheLocs
      | apply modifiesOnly_updateCache, scanned_cacheLocs ]]).
    apply modifiesOnly_updateCache, parsed_cacheLocs.
Qed.

Lemma specStep4_effect nc h :
  let h' := exec (specStep4 nc) h in
  (∀ l, cacheAt h' l =
        if decide (l = analyzedDocumentPromises nc)
        then resolvedDocument <$> publishedAnalyzed h nc else cacheAt h l) ∧
  scannedStore h' = scannedStore h ∧ analyzedStore h' = analyzedStore h ∧
  modifiesOnly nc h h'.
Proof.
  unfold specStep4. cbn zeta. rewrite !exec_bind, exec_entries, eval_entries.
  set (h1 := exec (onWork (AsyncWorkCache.clear (analyzedDocumentPromises nc))) h).
  destruct (reseed_loop nc (map_to_list (JsMap.contentsOf (analyzedStore h1)
                                           (analyzedDocuments nc))) h1)
    as (Hc & Hs & Ha & Hm).
  subst h1. rewrite clear_updateCache in *.
  split_and!; try done.
  - intros l. rewrite Hc, !cacheAt_updateCache. repeat case_decide; try done.
    by rewrite (foldl_insert_map_to_list resolvedDocument).
  - eapply modifiesOnly_trans; [| exact Hm].
    apply modifiesOnly_updateCache, analyzed_cacheLocs.
Qed.

(** Two stores that differ from a common one only in the contents of the
    objects of [nc], and agree on those, are equal. *)
Lemma heap_eq_of_contents nc h1 ha hb :
  (∀ l, l ∈ cacheLocs nc → is_Some (JsMap.objects (AsyncWorkCache.maps (work h1)) !! l)) →
  is_Some (JsMap.objects (scannedStore h1) !! scannedDocuments nc) →
  is_Some (JsMap.objects (analyzedStore h1) !! analyzedDocuments nc) →
  modifiesOnly nc h1 ha → modifiesOnly nc h1 hb →
  (∀ l, l ∈ cacheLocs nc → cacheAt ha l = cacheAt hb l) →
  publishedScanned ha nc = publishedScanned hb nc →
  publishedAnalyzed ha nc = publishedAnalyzed hb nc →
  ha = hb.
Proof.
  intros HaW HaS HaA
    (HnW & HnS & HnA & Hinv & HmW & HmS & HmA & HsW & HsS & HsA)
    (HnW' & HnS' & HnA' & Hinv' & HmW' & HmS' & HmA' & HsW' & HsS' & HsA')
    Hc Hps Hpa.
  destruct ha as [[wa ia] sa aa], hb as [[wb ib] sb ab]; cbn in *.
  f_equal; [f_equal |..]; [| congruence | |].
  - apply store_eq; [congruence |]. intros l.
    destruct (decide (l ∈ cacheLocs nc)) as [Hl | Hl].
    + rewrite !objects_contentsOf by auto. f_equal. apply (Hc l Hl).
    + by rewrite HmW, HmW'.
  - apply store_eq; [congruence |]. intros l.
    destruct (decide (l = scannedDocuments nc)) as [-> | Hl].
    + rewrite !objects_contentsOf by auto. by f_equal.
    + by rewrite HmS, HmS'.
  - apply store_eq; [congruence |]. intros l.
    destruct (decide (l = analyzedDocuments nc)) as [-> | Hl].
    + rewrite !objects_contentsOf by auto. by f_equal.
    + by rewrite HmA, HmA'.
Qed.

Lemma invalidateSpec_run this (ids : list string) h :
  let c := constructor (Some this)
             (Some (DependencyGraph.invalidatePaths (dependencyGraph this) ids)) in
  eval (invalidateSpec this ids) h = eval c h ∧
  exec (invalidateSpec this ids) h =
    exec (specStep4 (eval c h)) (exec (forEach ids (specStep3 this (eval c h))) (exec c h)).
Proof.
  unfold invalidateSpec. cbn zeta.
  by rewrite !eval_bind, !exec_bind, eval_ret, exec_ret.
Qed.

(** On a list that is not empty, [invalidate] and the algorithm of the
    specification return the same snapshot and leave the same store. *)
Lemma invalidate_invalidateSpec h this (ids : list string) :
  allocated h this → ids ≠ [] →
  invalidate this ids h = invalidateSpec this ids h.
Proof.
  intros Halloc Hne.
  rewrite (state_run_eq (invalidate this ids)), (state_run_eq (invalidateSpec this ids)).
  destruct (invalidate_run this ids h) as [-> ->].
  destruct (invalidateSpec_run this ids h) as [-> ->].
  f_equal.
  destruct (constructor_effect h this
              (DependencyGraph.invalidatePaths (dependencyGraph this) ids) Halloc)
    as (Hfresh & _).
  set (c := constructor (Some this)
              (Some (DependencyGraph.invalidatePaths (dependencyGraph this) ids))) in *.
  pose proof (freshIn_NoDup _ _ _ Hfresh) as Hnd.
  pose proof Hnd as (Hps & Hpd & Hpa & Hsd & Hsa & Hda)%cacheLocs_distinct.
  destruct (invalidate_loop this (eval c h) ids (exec c h) Hnd)
    as (Hp & Hs & Hd & Hsp & Hap & Ha & _ & Hm).
  destruct (rounds_effect this (eval c h) (specStep3 this (eval c h)) ids (exec c h)
              (λ p h0, specStep3_round this (eval c h) p h0 Hnd))
    as (Hp' & Hs' & Hd' & Hsp' & Hap' & Hm').
  set (h3 := exec (forEach ids (specStep3 this (eval c h))) (exec c h)) in *.
  destruct (specStep4_effect (eval c h) h3) as (Hc4 & Hs4 & Ha4 & Hm4).
  set (h4 := exec (specStep4 (eval c h)) h3) in *.
  set (hc := exec (forEach ids (invalidatePath this (eval c h))) (exec c h)) in *.
  assert (Hpub : publishedAnalyzed hc (eval c h) = publishedAnalyzed h3 (eval c h)).
  { apply map_eq; intros k. by rewrite Hap, Hap'. }
  destruct Hfresh as (_ & _ & _ & _ & _ & _ & HaW & HaS & HaA & _).
  apply (heap_eq_of_contents (eval c h) (exec c h)); try done.
  - by eapply modifiesOnly_trans.
  - intros l. unfold cacheLocs. rewrite !elem_of_cons, elem_of_nil.
    intros [-> | [-> | [-> | [-> | []]]]]; rewrite Hc4.
    + rewrite decide_False by done. apply map_eq; intros k.
      unfold parsedCache in *. by rewrite Hp, Hp'.
    + rewrite decide_False by done. apply map_eq; intros k.
      unfold scannedCache in *. by rewrite Hs, Hs'.
    + rewrite decide_False by done. apply map_eq; intros k.
      unfold dependenciesScannedCache in *. by rewrite Hd, Hd'.
    + rewrite decide_True by done. unfold analyzedCache in Ha.
      by rewrite (Ha Hne), Hpub.
  - unfold publishedScanned in *. rewrite Hs4. apply map_eq; intros k.
    by rewrite Hsp, Hsp'.
  - unfold publishedAnalyzed in *. by rewrite Ha4.
Qed.
End HeapFacts.

(** ** The analysis cache with its graph held by reference *)
Section ObjectFacts.
Context {ParsedDocument ScannedDocument Document : Type}.
Abbreviation Containers := (AnalysisCache.Heap ParsedDocument ScannedDocument Document).
Abbreviation ObjectHeap := (AnalysisCacheObject.Heap ParsedDocument ScannedDocument Document).
Import AnalysisCacheObject.
Implicit Types (h : ObjectHeap) (c nc this : AnalysisCacheObject.t).

Lemma onContainers_run {A} (m : State Containers A) h :
  onContainers m h = (eval m (containers h), mkHeap (exec m (containers h)) (graphs h)).
Proof. unfold onContainers, zoom, eval, exec. by destruct (m (containers h)). Qed.

Lemma state_bind_run {S A B} (m : State S A) (f : A → State S B) (s : S) :
  (m ≫= f) s = f (eval m s) (exec m s).
Proof. unfold mbind, state_bind, eval, exec. by destruct (m s). Qed.

Lemma onContainers_bind {A B} (m : State Containers A) (f : A → State Containers B) h :
  onContainers (m ≫= f) h = (onContainers m ≫= λ a, onContainers (f a)) h.
Proof.
  unfold onContainers, zoom, mbind, state_bind.
  destruct (m (containers h)) as [a c']. cbn. done.
Qed.

Lemma forEach_ext {S A} (l : list A) (f g : A → State S unit) (s : S) :
  (∀ x s', f x s' = g x s') → forEach l f s = forEach l g s.
Proof.
  intros Hfg. revert s. induction l as [|x l IH]; intros s; [done |].
  cbn [forEach]. unfold mbind, state_bind. rewrite Hfg.
  destruct (g x s) as [[] s']. apply IH.
Qed.

Lemma onContainers_forEach {A} (l : list A) (body : A → State Containers unit) h :
  onContainers (forEach l body) h = forEach l (λ x, onContainers (body x)) h.
Proof.
  revert h. induction l as [|x l IH]; intros h.
  - by destruct h.
  - cbn [forEach]. rewrite onContainers_bind. unfold mbind, state_bind.
    destruct (onContainers (body x) h) as [[] h1]. apply IH.
Qed.

Lemma onContainers_bind_congr {A B} (m : State ObjectHeap A) (m0 : State Containers A)
    (f : A → State ObjectHeap B) (f0 : A → State Containers B) :
  (∀ h, m h = onContainers m0 h) → (∀ a h, f a h = onContainers (f0 a) h) →
  ∀ h, (m ≫= f) h = onContainers (m0 ≫= f0) h.
Proof.
  intros Hm Hf h. rewrite onContainers_bind. unfold mbind, state_bind.
  rewrite Hm. destruct (onContainers m0 h) as [a h1]. apply Hf.
Qed.

Lemma onContainers_forEach_congr {A} (l : list A) (f : A → State ObjectHeap unit)
    (f0 : A → State Containers unit) :
  (∀ x h, f x h = onContainers (f0 x) h) →
  ∀ h, forEach l f h = onContainers (forEach l f0) h.
Proof.
  intros Hf h. rewrite onContainers_forEach. by apply forEach_ext.
Qed.

Lemma onGraphs_getAllDependantsOf h g id :
  onGraphs (DependencyGraphObject.getAllDependantsOf g id) h =
  (DependencyGraph.getAllDependantsOf (DependencyGraphObject.edgesOf (graphs h) g) id, h).
Proof. by destruct h. Qed.

Ltac on_containers :=
  repeat first
    [ apply onContainers_bind_congr; [| intros ?]
    | apply onContainers_forEach_congr; intros ?
    | intros ?; reflexivity ].

(** One round of the loop of [invalidate] reads the graph of the receiver
    and then works on the containers alone. *)
Lemma invalidatePath_containers this nc path h :
  invalidatePath this nc path h =
  onContainers (AnalysisCache.invalidatePath (snapshotOf h this) (snapshotOf h nc) path) h.
Proof.
  unfold invalidatePath, AnalysisCache.invalidatePath, onWork, onScanned, onAnalyzed.
  rewrite state_bind_run.
  unfold eval at 1, exec at 1. rewrite onGraphs_getAllDependantsOf. cbn [fst snd].
  cbn [snapshotOf AnalysisCache.parsedDocumentPromises AnalysisCache.scannedDocumentPromises
       AnalysisCache.dependenciesScannedPromises AnalysisCache.analyzedDocumentPromises
       AnalysisCache.scannedDocuments AnalysisCache.analyzedDocuments
       AnalysisCache.dependencyGraph].
  generalize (DependencyGraph.getAllDependantsOf
                (DependencyGraphObject.edgesOf (graphs h) (dependencyGraph this)) path).
  intros ds. revert h. on_containers.
Qed.

Lemma graphs_onContainers {A} (m : State Containers A) h :
  graphs (exec (onContainers m) h) = graphs h.
Proof. unfold exec. by rewrite onContainers_run. Qed.

(** The loop of [invalidate] is the loop over the containers; no round
    touches a graph. *)
Lemma invalidate_loop_containers this nc (paths : list string) h :
  forEach paths (invalidatePath this nc) h =
  onContainers (forEach paths (AnalysisCache.invalidatePath (snapshotOf h this)
                                 (snapshotOf h nc))) h.
Proof.
  revert h. induction paths as [|p paths IH]; intros h.
  - by destruct h.
  - cbn [forEach]. rewrite onContainers_bind. unfold mbind, state_bind.
    rewrite invalidatePath_containers.
    rewrite (state_run_eq (onContainers _)).
    rewrite IH. unfold snapshotOf. by rewrite graphs_onContainers.
Qed.

(** The copy constructor allocates the six containers as the constructor of
    [AnalysisCache] does and stores the reference to the graph it is
    given. *)
Lemma constructor_containers this g h :
  let r := AnalysisCache.constructor (Some (snapshotOf h this))
             (Some (DependencyGraphObject.edgesOf (graphs h) g)) (containers h) in
  constructor (Some this) (Some g) h =
  (mkCache (AnalysisCache.parsedDocumentPromises r.1)
           (AnalysisCache.scannedDocumentPromises r.1)
           (AnalysisCache.dependenciesScannedPromises r.1)
           (AnalysisCache.analyzedDocumentPromises r.1)
           (AnalysisCache.scannedDocuments r.1)
           (AnalysisCache.analyzedDocuments r.1) g,
   mkHeap r.2 (graphs h)).
Proof.
  destruct h as [hc hg]. destruct this. reflexivity.
Qed.

Lemma constructor_dependencyGraph (from : option AnalysisCache.t) g (hc : Containers) :
  AnalysisCache.dependencyGraph (eval (AnalysisCache.constructor from (Some g)) hc) = g.
Proof. reflexivity. Qed.

Lemma edgesOf_invalidatePaths_old (s : DependencyGraphObject.Store) g (ids : list string) g' :
  g' < DependencyGraphObject.nextLoc s →
  DependencyGraphObject.edgesOf (exec (DependencyGraphObject.invalidatePaths g ids) s) g' =
  DependencyGraphObject.edgesOf s g'.
Proof.
  intros Hg. unfold DependencyGraphObject.edgesOf, exec, DependencyGraphObject.invalidatePaths,
    DependencyGraphObject.alloc.
  cbn. by rewrite lookup_insert_ne by lia.
Qed.

Lemma edgesOf_invalidatePaths_new (s : DependencyGraphObject.Store) g (ids : list string) :
  DependencyGraphObject.edgesOf (exec (DependencyGraphObject.invalidatePaths g ids) s)
    (DependencyGraphObject.nextLoc s) =
  DependencyGraph.invalidatePaths (DependencyGraphObject.edgesOf s g) ids.
Proof.
  unfold DependencyGraphObject.edgesOf, exec, DependencyGraphObject.invalidatePaths,
    DependencyGraphObject.alloc.
  cbn. by rewrite lookup_insert_eq.
Qed.

Lemma onGraphs_invalidatePaths h g (ids : list string) :
  onGraphs (DependencyGraphObject.invalidatePaths g ids) h =
  (DependencyGraphObject.nextLoc (graphs h),
   mkHeap (containers h)
     (exec (DependencyGraphObject.invalidatePaths g ids) (graphs h))).
Proof. by destruct h. Qed.

(** [invalidate] on a snapshot with its graph held by reference: the graph
    store gains the graph that [invalidatePaths] returns, and the containers
    go through [AnalysisCache.invalidate] on the snapshot with the edges of
    its graph read off the store. *)
Lemma invalidate_run_containers h this (ids : list string) :
  dependencyGraph this < DependencyGraphObject.nextLoc (graphs h) →
  let r := AnalysisCache.invalidate (snapshotOf h this) ids (containers h) in
  invalidate this ids h =
  (mkCache (AnalysisCache.parsedDocumentPromises r.1)
           (AnalysisCache.scannedDocumentPromises r.1)
           (AnalysisCache.dependenciesScannedPromises r.1)
           (AnalysisCache.analyzedDocumentPromises r.1)
           (AnalysisCache.scannedDocuments r.1)
           (AnalysisCache.analyzedDocuments r.1)
           (DependencyGraphObject.nextLoc (graphs h)),
   mkHeap r.2
     (exec (DependencyGraphObject.invalidatePaths (dependencyGraph this) ids) (graphs h))).
Proof.
  intros Hg r. subst r.
  rewrite (state_run_eq (AnalysisCache.invalidate _ _)).
  destruct (invalidate_run (snapshotOf h this) ids (containers h)) as [-> ->].
  cbn [fst snd].
  set (c := AnalysisCache.constructor _ _).
  set (hg' := exec (DependencyGraphObject.invalidatePaths _ _) _).
  set (h1 := mkHeap (containers h) hg').
  assert (snapshotOf h1 this = snapshotOf h this) as Hthis.
  { unfold snapshotOf, h1, hg'. cbn [graphs]. by rewrite edgesOf_invalidatePaths_old. }
  assert (DependencyGraphObject.edgesOf hg' (DependencyGraphObject.nextLoc (graphs h)) =
          DependencyGraph.invalidatePaths
            (AnalysisCache.dependencyGraph (snapshotOf h this)) ids) as Hnew.
  { unfold hg'. by rewrite edgesOf_invalidatePaths_new. }
  set (nc := mkCache _ _ _ _ _ _ _).
  set (h2 := mkHeap (exec c (containers h)) hg').
  assert (constructor (Some this) (Some (DependencyGraphObject.nextLoc (graphs h))) h1 =
          (nc, h2)) as Hc.
  { rewrite constructor_containers. cbn zeta. rewrite Hthis.
    change (graphs h1) with hg'. by rewrite Hnew. }
  assert (snapshotOf h2 this = snapshotOf h this) as Hthis2 by (by rewrite <- Hthis).
  assert (snapshotOf h2 nc = eval c (containers h)) as Hnc.
  { unfold snapshotOf, nc, h2. cbn [graphs parsedDocumentPromises scannedDocumentPromises
      dependenciesScannedPromises analyzedDocumentPromises scannedDocuments
      analyzedDocuments dependencyGraph].
    rewrite Hnew.
    rewrite <- (constructor_dependencyGraph (Some (snapshotOf h this))
                 (DependencyGraph.invalidatePaths
                    (AnalysisCache.dependencyGraph (snapshotOf h this)) ids) (containers h)).
    fold c. by destruct (eval c (containers h)). }
  unfold invalidate, mbind, state_bind.
  rewrite onGraphs_invalidatePaths. fold hg' h1. rewrite Hc.
  rewrite invalidate_loop_containers, Hthis2, Hnc, onContainers_run.
  done.
Qed.

(** The two embeddings of [invalidate] agree: the snapshot returned with its
    graph held by reference, read off the store, is the snapshot that
    [AnalysisCache.invalidate] returns, and the containers end up the same. *)
Lemma invalidate_snapshotOf h this (ids : list string) :
  dependencyGraph this < DependencyGraphObject.nextLoc (graphs h) →
  let nc := eval (invalidate this ids) h in
  let h' := exec (invalidate this ids) h in
  snapshotOf h' nc = eval (AnalysisCache.invalidate (snapshotOf h this) ids) (containers h) ∧
  containers h' = exec (AnalysisCache.invalidate (snapshotOf h this) ids) (containers h).
Proof.
  intros Hg nc h'. subst nc h'. unfold eval at 1 2, exec at 1 2.
  rewrite (invalidate_run_containers h this ids Hg). cbn zeta. cbn [fst snd containers].
  split; [| done].
  unfold snapshotOf. cbn [graphs parsedDocumentPromises scannedDocumentPromises
      dependenciesScannedPromises analyzedDocumentPromises scannedDocuments
      analyzedDocuments dependencyGraph].
  rewrite edgesOf_invalidatePaths_new.
  destruct (invalidate_run (snapshotOf h this) ids (containers h)) as [He _].
  fold (snapshotOf h this).
  rewrite <- (constructor_dependencyGraph (Some (snapshotOf h this))
               (DependencyGraph.invalidatePaths
                  (DependencyGraphObject.edgesOf (graphs h) (dependencyGraph this)) ids)
               (containers h)).
  change (DependencyGraphObject.edgesOf (graphs h) (dependencyGraph this))
    with (AnalysisCache.dependencyGraph (snapshotOf h this)).
  rewrite <- He. unfold eval.
  by destruct ((AnalysisCache.invalidate (snapshotOf h this) ids (containers h)).1).
Qed.
End ObjectFacts.

(** ** Invalidation *)
Section InvalidateTheorems.
Context {ParsedDocument ScannedDocument Document : Type}.
Import AnalysisCache.
Implicit Types (h : Heap ParsedDocument ScannedDocument Document)
  (this : AnalysisCache.t) (id : string) (paths ids : list string).

(** C1: in the snapshot returned by [invalidate(paths)], no id of [paths] and
    no transitive dependant of such an id, computed on the graph of the
    receiver, has an analyzed result or a dependencies-scanned result,
    neither in the published analyzed documents nor in the work caches. *)
Theorem invalidate_removes_stale h this paths id :
  allocated h this →
  (id ∈ paths ∨
   ∃ p, p ∈ paths ∧ id ∈ DependencyGraph.getAllDependantsOf (dependencyGraph this) p) →
  let newCache := eval (invalidate this paths) h in
  let h' := exec (invalidate this paths) h in
  publishedAnalyzed h' newCache !! id = None ∧
  analyzedCache h' newCache !! id = None ∧
  dependenciesScannedCache h' newCache !! id = None.
Proof.
  intros Halloc Hid%elem_of_staleIds newCache h'.
  destruct (invalidate_effect h this paths Halloc)
    as (_ & _ & _ & Hd & _ & Hpa & Ha & _).
  fold newCache h' in Hd, Hpa, Ha.
  assert (paths ≠ []) as Hne.
  { intros ->. apply elem_of_staleIds in Hid as [Hin | (? & Hin & _)];
      by apply elem_of_nil in Hin. }
  assert (publishedAnalyzed h' newCache !! id = None) as Hnone
    by (by rewrite Hpa, decide_True).
  split_and!.
  - done.
  - by rewrite (Ha Hne), lookup_fmap, Hnone.
  - by rewrite Hd, decide_True.
Qed.

(** C3: a transitive dependant [d] of an invalidated id that is not itself
    invalidated leaves the dependencies-scanned work cache, the analyzed
    work cache and the published analyzed documents, and keeps its entries
    in the parsed work cache, the scanned work cache and the published
    scanned documents. *)
Theorem invalidate_dependant_keeps_parse_scan h this ids p d :
  allocated h this →
  p ∈ ids → d ∈ DependencyGraph.getAllDependantsOf (dependencyGraph this) p → d ∉ ids →
  let newCache := eval (invalidate this ids) h in
  let h' := exec (invalidate this ids) h in
  (dependenciesScannedCache h' newCache !! d = None ∧
   analyzedCache h' newCache !! d = None ∧
   publishedAnalyzed h' newCache !! d = None) ∧
  (parsedCache h' newCache !! d = parsedCache h this !! d ∧
   scannedCache h' newCache !! d = scannedCache h this !! d ∧
   publishedScanned h' newCache !! d = publishedScanned h this !! d).
Proof.
  intros Halloc Hp Hd Hnotin newCache h'.
  destruct (invalidate_effect h this ids Halloc)
    as (_ & Hpc & Hsc & Hdc & Hps & Hpa & Ha & _).
  fold newCache h' in Hpc, Hsc, Hdc, Hps, Hpa, Ha.
  assert (d ∈ staleIds (dependencyGraph this) ids) as Hstale
    by (apply elem_of_staleIds; eauto).
  assert (ids ≠ []) as Hne by (intros ->; by apply elem_of_nil in Hp).
  assert (publishedAnalyzed h' newCache !! d = None) as Hnone
    by (by rewrite Hpa, decide_True).
  split; split_and!.
  - by rewrite Hdc, decide_True.
  - by rewrite (Ha Hne), lookup_fmap, Hnone.
  - done.
  - by rewrite Hpc, decide_False.
  - by rewrite Hsc, decide_False.
  - by rewrite Hps, decide_False.
Qed.

(** C4: [invalidate([])] returns a snapshot with the same entries in the
    four work caches and in the two published mappings, and with the same
    edges in its dependency graph. *)
Theorem invalidate_nil_identity h this :
  allocated h this →
  let newCache := eval (invalidate this []) h in
  let h' := exec (invalidate this []) h in
  parsedCache h' newCache = parsedCache h this ∧
  scannedCache h' newCache = scannedCache h this ∧
  dependenciesScannedCache h' newCache = dependenciesScannedCache h this ∧
  analyzedCache h' newCache = analyzedCache h this ∧
  publishedScanned h' newCache = publishedScanned h this ∧
  publishedAnalyzed h' newCache = publishedAnalyzed h this ∧
  dependencyGraph newCache = dependencyGraph this.
Proof.
  intros Halloc newCache h'.
  destruct (invalidate_effect h this [] Halloc)
    as (Hg & Hpc & Hsc & Hdc & Hps & Hpa & _ & Ha & _).
  fold newCache h' in Hg, Hpc, Hsc, Hdc, Hps, Hpa, Ha.
  assert (∀ k, k ∉ staleIds (dependencyGraph this) []) as Hstale.
  { intros k [Hin | (? & Hin & _)]%elem_of_staleIds; by apply elem_of_nil in Hin. }
  split_and!.
  - apply map_eq; intros k. rewrite Hpc. rewrite decide_False; [done | apply not_elem_of_nil].
  - apply map_eq; intros k. rewrite Hsc. rewrite decide_False; [done | apply not_elem_of_nil].
  - apply map_eq; intros k. rewrite Hdc. by rewrite decide_False.
  - by apply Ha.
  - apply map_eq; intros k. rewrite Hps. rewrite decide_False; [done | apply not_elem_of_nil].
  - apply map_eq; intros k. rewrite Hpa. by rewrite decide_False.
  - by rewrite Hg, invalidatePaths_nil.
Qed.

(** C10: after [invalidate(ids)] on a list that is not empty, the analyzed
    work cache and the published analyzed documents of the returned snapshot
    have the same ids, every entry of the work cache is the resolved promise
    of the published document, and no entry is the promise of a
    computation, in flight or not. *)
Theorem invalidate_analyzed_agrees h this ids :
  allocated h this → ids ≠ [] →
  let newCache := eval (invalidate this ids) h in
  let h' := exec (invalidate this ids) h in
  dom (analyzedCache h' newCache) = dom (publishedAnalyzed h' newCache) ∧
  (∀ id, analyzedCache h' newCache !! id =
         resolvedDocument <$> publishedAnalyzed h' newCache !! id) ∧
  (∀ id pid, analyzedCache h' newCache !! id ≠ Some (AsyncWorkCache.Computing pid)).
Proof.
  intros Halloc Hne newCache h'.
  destruct (invalidate_effect h this ids Halloc) as (_ & _ & _ & _ & _ & _ & Ha & _).
  fold newCache h' in Ha. specialize (Ha Hne).
  split_and!.
  - by rewrite Ha, dom_fmap_L.
  - intros id. by rewrite Ha, lookup_fmap.
  - intros id pid. rewrite Ha, lookup_fmap.
    by destruct (publishedAnalyzed h' newCache !! id).
Qed.

(** C2, as the code has it: for a list of ids that is not empty,
    [invalidate] returns the snapshot and leaves the store that the five
    steps of the specification produce.  The code clears and re-seeds the
    analyzed work cache at the end of every round of its loop, not once
    after the loop. *)
Theorem invalidate_agrees_with_spec_nonempty h this ids :
  allocated h this → ids ≠ [] →
  invalidate this ids h = invalidateSpec this ids h.
Proof. apply invalidate_invalidateSpec. Qed.
End InvalidateTheorems.

(** ** The receiver of [invalidate] *)
Section ReceiverTheorem.
Context {ParsedDocument ScannedDocument Document : Type}.
Import AnalysisCacheObject.
Implicit Types (h : AnalysisCacheObject.Heap ParsedDocument ScannedDocument Document)
  (this : AnalysisCacheObject.t) (ids : list string).

(** C5: [invalidate] does not mutate its receiver.  With every field of the
    snapshot a reference, the graph too: after the call the four work
    caches, the two published mappings and the dependency graph of the
    receiver answer as before; every object that existed before the call,
    container or graph, is left as it was; the outcomes of the promises are
    untouched; and the returned snapshot owns objects of its own, none of
    which existed before.  The calls on the graph, [invalidatePaths] and
    [getAllDependantsOf], are modelled from the spec. *)
Theorem invalidate_preserves_receiver h this ids :
  allocated h this →
  let newCache := eval (invalidate this ids) h in
  let h' := exec (invalidate this ids) h in
  (parsedCache h' this = parsedCache h this ∧
   scannedCache h' this = scannedCache h this ∧
   dependenciesScannedCache h' this = dependenciesScannedCache h this ∧
   analyzedCache h' this = analyzedCache h this ∧
   publishedScanned h' this = publishedScanned h this ∧
   publishedAnalyzed h' this = publishedAnalyzed h this ∧
   DependencyGraphObject.edgesOf (graphs h') (dependencyGraph this) =
     DependencyGraphObject.edgesOf (graphs h) (dependencyGraph this) ∧
   (∀ id, dependantsOf h' this id = dependantsOf h this id)) ∧
  preserves h h' ∧
  (∀ p, AsyncWorkCache.outcomeOf (AnalysisCache.work (containers h')) p =
        AsyncWorkCache.outcomeOf (AnalysisCache.work (containers h)) p) ∧
  (∀ l, l ∈ cacheLocs newCache →
        JsMap.nextLoc (AsyncWorkCache.maps (AnalysisCache.work (containers h))) ≤ l) ∧
  JsMap.nextLoc (AnalysisCache.scannedStore (containers h)) ≤ scannedDocuments newCache ∧
  JsMap.nextLoc (AnalysisCache.analyzedStore (containers h)) ≤ analyzedDocuments newCache ∧
  DependencyGraphObject.nextLoc (graphs h) ≤ dependencyGraph newCache.
Proof.
  intros [Halloc Hg] newCache h'.
  pose proof (invalidate_run_containers h this ids Hg) as Hrun. cbn zeta in Hrun.
  pose proof (invalidate_effect (containers h) (snapshotOf h this) ids Halloc)
    as (_ & _ & _ & _ & _ & _ & _ & _ & Hpres & Hfresh).
  unfold eval, exec in Hpres, Hfresh.
  subst newCache h'. unfold eval, exec. rewrite Hrun. clear Hrun.
  set (r := AnalysisCache.invalidate (snapshotOf h this) ids (containers h)) in *.
  cbn [fst snd].
  assert (∀ g, g < DependencyGraphObject.nextLoc (graphs h) →
            DependencyGraphObject.objects
              (DependencyGraphObject.invalidatePaths (dependencyGraph this) ids (graphs h)).2
              !! g = DependencyGraphObject.objects (graphs h) !! g) as Hgraphs.
  { intros g Hlt. cbn. by rewrite lookup_insert_ne by lia. }
  pose proof Hpres as (HW & HS & HA & Hinv).
  destruct Halloc as (Hp & Hs & Hd & Ha & Hsd & Had).
  cbn [snapshotOf AnalysisCache.parsedDocumentPromises AnalysisCache.scannedDocumentPromises
       AnalysisCache.dependenciesScannedPromises AnalysisCache.analyzedDocumentPromises
       AnalysisCache.scannedDocuments AnalysisCache.analyzedDocuments] in Hp, Hs, Hd, Ha, Hsd, Had.
  split_and!.
  - unfold parsedCache, AnalysisCache.cacheAt, AsyncWorkCache.entriesOf, JsMap.contentsOf.
    cbn [containers]. by rewrite HW.
  - unfold scannedCache, AnalysisCache.cacheAt, AsyncWorkCache.entriesOf, JsMap.contentsOf.
    cbn [containers]. by rewrite HW.
  - unfold dependenciesScannedCache, AnalysisCache.cacheAt, AsyncWorkCache.entriesOf,
      JsMap.contentsOf.
    cbn [containers]. by rewrite HW.
  - unfold analyzedCache, AnalysisCache.cacheAt, AsyncWorkCache.entriesOf, JsMap.contentsOf.
    cbn [containers]. by rewrite HW.
  - unfold publishedScanned, JsMap.contentsOf. cbn [containers]. by rewrite HS.
  - unfold publishedAnalyzed, JsMap.contentsOf. cbn [containers]. by rewrite HA.
  - cbn [graphs]. unfold DependencyGraphObject.edgesOf. by rewrite Hgraphs.
  - intros id. unfold dependantsOf, eval. rewrite !onGraphs_getAllDependantsOf.
    cbn [fst graphs]. unfold DependencyGraphObject.edgesOf. by rewrite Hgraphs.
  - split; [exact Hpres | exact Hgraphs].
  - intros [pid | v]; [| done]. unfold AsyncWorkCache.outcomeOf. cbn [containers].
    by rewrite Hinv.
  - destruct Hfresh as (Hfp & Hfs & Hfa & Hfd & _).
    intros l. unfold cacheLocs.
    cbn [parsedDocumentPromises scannedDocumentPromises dependenciesScannedPromises
         analyzedDocumentPromises].
    rewrite Hfp, Hfs, Hfa, Hfd, !elem_of_cons, elem_of_nil.
    intros [-> | [-> | [-> | [-> | []]]]]; lia.
  - destruct Hfresh as (_ & _ & _ & _ & Hfs & _). cbn [scannedDocuments]. by rewrite Hfs.
  - destruct Hfresh as (_ & _ & _ & _ & _ & Hfa & _). cbn [analyzedDocuments]. by rewrite Hfa.
  - done.
Qed.
End ReceiverTheorem.

(** ** The guarantees of the memoizing work cache *)
Section WorkCacheTheorems.
Context {V : Type}.
Implicit Types (w : AsyncWorkCache.World V) (c : loc) (k : string)
  (p : AsyncWorkCache.Promise V) (ops : list (AsyncWorkCache.Op V)).

(** C6, as the cache has it: over a trace without [delete(k)] and
    [clear()], at most one [compute] function is invoked for [k], and none
    when [k] has an entry at the start; [getOrCompute] on a key with an
    entry returns that entry and changes nothing.  When the trace has no
    [set(k, _)] either, an entry that exists stays, every [getOrCompute] for
    [k] returns it, and all callers of the trace receive one and the same
    promise.  The outcome of a settled promise never changes. *)
Theorem getOrCompute_once_per_key w c k ops :
  AsyncWorkCache.allocatedCache w c →
  AsyncWorkCache.keeps c k ops = true →
  let w' := exec (AsyncWorkCache.run ops) w in
  let results := eval (AsyncWorkCache.run ops) w in
  AsyncWorkCache.computeCount w' c k ≤ S (AsyncWorkCache.computeCount w c k) ∧
  (is_Some (AsyncWorkCache.entriesOf w c !! k) →
   AsyncWorkCache.computeCount w' c k = AsyncWorkCache.computeCount w c k) ∧
  (∀ p f, AsyncWorkCache.entriesOf w c !! k = Some p →
          AsyncWorkCache.getOrCompute c k f w = (p, w)) ∧
  (AsyncWorkCache.keepsEntry c k ops = true →
   (∀ p, AsyncWorkCache.entriesOf w c !! k = Some p →
         AsyncWorkCache.entriesOf w' c !! k = Some p ∧
         ∀ i f, ops !! i = Some (AsyncWorkCache.GetOrCompute c k f) →
                results !! i = Some (Some p)) ∧
   (∃ p, ∀ i f, ops !! i = Some (AsyncWorkCache.GetOrCompute c k f) →
                results !! i = Some (Some p))) ∧
  (∀ p o, AsyncWorkCache.outcomeOf w p = Some o →
          AsyncWorkCache.outcomeOf w' p = Some o).
Proof.
  intros Hc Hk w' results. split_and!.
  - by apply run_count.
  - by apply run_count_hit.
  - intros p f Hp. by apply getOrCompute_hit.
  - intros Hke. split.
    + intros p Hp. destruct (run_hit ops w c k p Hc Hp Hke) as (? & _ & ?). done.
    + by apply run_same_promise.
  - intros p o. apply outcomeOf_run.
Qed.

(** C7, as the cache has it: when the computation for [k] has failed, then
    after any trace without [delete(k)], [clear()] and [set(k, _)] every
    [getOrCompute(k, f2)] returns the promise of the failed computation,
    whose outcome is still the original failure, and invokes nothing.  After
    [delete(k)] a [getOrCompute(k, f2)] invokes [f2] and registers a new
    promise, which is in flight. *)
Theorem failure_sticky_until_removed w c k p reason ops f2 :
  AsyncWorkCache.allocatedCache w c →
  AsyncWorkCache.entriesOf w c !! k = Some p →
  AsyncWorkCache.outcomeOf w p = Some (AsyncWorkCache.Failure reason) →
  AsyncWorkCache.keepsEntry c k ops = true →
  let w1 := exec (AsyncWorkCache.run ops) w in
  (AsyncWorkCache.getOrCompute c k f2 w1 = (p, w1) ∧
   AsyncWorkCache.outcomeOf w1 p = Some (AsyncWorkCache.Failure reason) ∧
   AsyncWorkCache.computeCount w1 c k = AsyncWorkCache.computeCount w c k ∧
   ∀ i f, ops !! i = Some (AsyncWorkCache.GetOrCompute c k f) →
          eval (AsyncWorkCache.run ops) w !! i = Some (Some p)) ∧
  let w2 := exec (AsyncWorkCache.delete c k) w1 in
  let p' := eval (AsyncWorkCache.getOrCompute c k f2) w2 in
  let w3 := exec (AsyncWorkCache.getOrCompute c k f2) w2 in
  p' ≠ p ∧
  AsyncWorkCache.entriesOf w3 c !! k = Some p' ∧
  AsyncWorkCache.outcomeOf w3 p' = None ∧
  AsyncWorkCache.computeCount w3 c k = S (AsyncWorkCache.computeCount w1 c k).
Proof.
  intros Hc Hp Ho Hk w1.
  destruct (run_hit ops w c k p Hc Hp Hk) as (Hp1 & Hn1 & Hr).
  pose proof (outcomeOf_run ops w p _ Ho) as Ho1. fold w1 in Hp1, Hn1, Ho1.
  split; [split_and!; try done; by apply getOrCompute_hit |].
  intros w2 p' w3.
  assert (AsyncWorkCache.entriesOf w2 c !! k = None) as Hnone.
  { subst w2. unfold AsyncWorkCache.delete, JsMap.delete.
    rewrite entriesOf_update, decide_True by done. apply lookup_delete_eq. }
  destruct (getOrCompute_miss w2 c k f2 Hnone) as (Hp' & He' & Ho' & Hn').
  fold p' w3 in Hp', He', Ho', Hn'.
  assert (AsyncWorkCache.computeCount w2 c k = AsyncWorkCache.computeCount w1 c k) as Hn2
    by done.
  assert (AsyncWorkCache.outcomeOf w2 p = Some (AsyncWorkCache.Failure reason)) as Ho2
    by (by destruct p).
  split_and!.
  - intros Heq.
    assert (AsyncWorkCache.outcomeOf w2
              (AsyncWorkCache.Computing (length (AsyncWorkCache.invocations w2))) =
            Some (AsyncWorkCache.Failure reason)) as Habs by congruence.
    cbn in Habs. by rewrite lookup_ge_None_2 in Habs.
  - rewrite He'. f_equal. symmetry. exact Hp'.
  - rewrite <- Ho'. f_equal. exact Hp'.
  - by rewrite Hn', Hn2.
Qed.
End WorkCacheTheorems.

(** ** The theorems at work on the examples *)
Section Witnesses.
Import AnalysisCache.

Lemma invalidate_removes_stale_witness :
  allocated Examples.chainStore Examples.chainCache ∧
  ("A" ∈ ["C"] ∨
   ∃ p, p ∈ ["C"] ∧
        "A" ∈ DependencyGraph.getAllDependantsOf (dependencyGraph Examples.chainCache) p) ∧
  let newCache := eval (invalidate Examples.chainCache ["C"]) Examples.chainStore in
  let h' := exec (invalidate Examples.chainCache ["C"]) Examples.chainStore in
  publishedAnalyzed h' newCache !! "A" = None ∧
  analyzedCache h' newCache !! "A" = None ∧
  dependenciesScannedCache h' newCache !! "A" = None.
Proof.
  assert (Ha : allocated Examples.chainStore Examples.chainCache)
    by (vm_compute; lia).
  assert (Hd : "A" ∈ ["C"] ∨
            ∃ p, p ∈ ["C"] ∧
                 "A" ∈ DependencyGraph.getAllDependantsOf
                         (dependencyGraph Examples.chainCache) p).
  { right. exists "C". split; [left |].
    apply (bool_decide_unpack _); vm_compute; exact I. }
  split; [exact Ha |]. split; [exact Hd |].
  exact (invalidate_removes_stale Examples.chainStore Examples.chainCache ["C"] "A" Ha Hd).
Defined.

Lemma invalidate_dependant_keeps_parse_scan_witness :
  allocated Examples.chainStore Examples.chainCache ∧
  "C" ∈ ["C"] ∧
  "A" ∈ DependencyGraph.getAllDependantsOf (dependencyGraph Examples.chainCache) "C" ∧
  "A" ∉ ["C"] ∧
  let newCache := eval (invalidate Examples.chainCache ["C"]) Examples.chainStore in
  let h' := exec (invalidate Examples.chainCache ["C"]) Examples.chainStore in
  (dependenciesScannedCache h' newCache !! "A" = None ∧
   analyzedCache h' newCache !! "A" = None ∧
   publishedAnalyzed h' newCache !! "A" = None) ∧
  (parsedCache h' newCache !! "A" = parsedCache Examples.chainStore Examples.chainCache !! "A" ∧
   scannedCache h' newCache !! "A" =
     scannedCache Examples.chainStore Examples.chainCache !! "A" ∧
   publishedScanned h' newCache !! "A" =
     publishedScanned Examples.chainStore Examples.chainCache !! "A").
Proof.
  assert (Ha : allocated Examples.chainStore Examples.chainCache)
    by (vm_compute; lia).
  assert (Hp : "C" ∈ ["C"]) by left.
  assert (Hd : "A" ∈ DependencyGraph.getAllDependantsOf
                       (dependencyGraph Examples.chainCache) "C")
    by (apply (bool_decide_unpack _); vm_compute; exact I).
  assert (Hn : "A" ∉ ["C"])
    by (apply (bool_decide_unpack _); vm_compute; exact I).
  split; [exact Ha |]. split; [exact Hp |]. split; [exact Hd |]. split; [exact Hn |].
  exact (invalidate_dependant_keeps_parse_scan
           Examples.chainStore Examples.chainCache ["C"] "C" "A" Ha Hp Hd Hn).
Defined.

Lemma invalidate_nil_identity_witness :
  allocated Examples.chainStore Examples.chainCache ∧
  let newCache := eval (invalidate Examples.chainCache []) Examples.chainStore in
  let h' := exec (invalidate Examples.chainCache []) Examples.chainStore in
  parsedCache h' newCache = parsedCache Examples.chainStore Examples.chainCache ∧
  scannedCache h' newCache = scannedCache Examples.chainStore Examples.chainCache ∧
  dependenciesScannedCache h' newCache =
    dependenciesScannedCache Examples.chainStore Examples.chainCache ∧
  analyzedCache h' newCache = analyzedCache Examples.chainStore Examples.chainCache ∧
  publishedScanned h' newCache = publishedScanned Examples.chainStore Examples.chainCache ∧
  publishedAnalyzed h' newCache = publishedAnalyzed Examples.chainStore Examples.chainCache ∧
  dependencyGraph newCache = dependencyGraph Examples.chainCache.
Proof.
  assert (Ha : allocated Examples.chainStore Examples.chainCache)
    by (vm_compute; lia).
  split; [exact Ha |].
  exact (invalidate_nil_identity Examples.chainStore Examples.chainCache Ha).
Defined.

Lemma invalidate_analyzed_agrees_witness :
  allocated Examples.chainStore Examples.chainCache ∧ ["C"] ≠ [] ∧
  let newCache := eval (invalidate Examples.chainCache ["C"]) Examples.chainStore in
  let h' := exec (invalidate Examples.chainCache ["C"]) Examples.chainStore in
  dom (analyzedCache h' newCache) = dom (publishedAnalyzed h' newCache) ∧
  (∀ id, analyzedCache h' newCache !! id =
         resolvedDocument <$> publishedAnalyzed h' newCache !! id) ∧
  (∀ id pid, analyzedCache h' newCache !! id ≠ Some (AsyncWorkCache.Computing pid)).
Proof.
  assert (Ha : allocated Examples.chainStore Examples.chainCache)
    by (vm_compute; lia).
  assert (Hne : ["C"] ≠ []) by discriminate.
  split; [exact Ha |]. split; [exact Hne |].
  exact (invalidate_analyzed_agrees Examples.chainStore Examples.chainCache ["C"] Ha Hne).
Defined.

Lemma invalidate_agrees_with_spec_nonempty_witness :
  allocated Examples.chainStore Examples.chainCache ∧ ["C"] ≠ [] ∧
  invalidate Examples.chainCache ["C"] Examples.chainStore =
  invalidateSpec Examples.chainCache ["C"] Examples.chainStore.
Proof.
  assert (Ha : allocated Examples.chainStore Examples.chainCache)
    by (vm_compute; lia).
  assert (Hne : ["C"] ≠ []) by discriminate.
  split; [exact Ha |]. split; [exact Hne |].
  exact (invalidate_agrees_with_spec_nonempty
           Examples.chainStore Examples.chainCache ["C"] Ha Hne).
Defined.

(** On the empty list the five steps of the specification clear the analyzed
    work cache and drop the analysis of A that is in flight; [invalidate]
    keeps it. *)
Lemma invalidate_differs_from_spec_on_nil :
  allocated Examples.unsyncedStore Examples.unsyncedCache ∧
  analyzedCache (exec (invalidate Examples.unsyncedCache []) Examples.unsyncedStore)
    (eval (invalidate Examples.unsyncedCache []) Examples.unsyncedStore) !! "A" =
    Some (AsyncWorkCache.Computing 0) ∧
  analyzedCache (exec (invalidateSpec Examples.unsyncedCache []) Examples.unsyncedStore)
    (eval (invalidateSpec Examples.unsyncedCache []) Examples.unsyncedStore) !! "A" = None ∧
  invalidate Examples.unsyncedCache [] Examples.unsyncedStore ≠
  invalidateSpec Examples.unsyncedCache [] Examples.unsyncedStore.
Proof.
  split; [vm_compute; lia |].
  split; [vm_compute; reflexivity |].
  split; [vm_compute; reflexivity |].
  intros Heq. apply (f_equal (λ r, analyzedCache r.2 r.1 !! "A")) in Heq.
  vm_compute in Heq. discriminate Heq.
Qed.

(** C9 at a snapshot the code receives: the scanned work cache and the
    published scanned documents of [unsyncedCache] hold different results for
    A, and so do those of the snapshot that [invalidate] returns for another
    document.  Nothing in [invalidate] brings the two in line. *)
Lemma invalidate_keeps_unsynced_scanned :
  publishedScanned Examples.unsyncedStore Examples.unsyncedCache !! "A" =
    Some "second scan" ∧
  scannedCache Examples.unsyncedStore Examples.unsyncedCache !! "A" =
    Some (AsyncWorkCache.Resolved (ScannedP "first scan")) ∧
  publishedScanned (exec (invalidate Examples.unsyncedCache ["B"]) Examples.unsyncedStore)
    (eval (invalidate Examples.unsyncedCache ["B"]) Examples.unsyncedStore) !! "A" =
    Some "second scan" ∧
  scannedCache (exec (invalidate Examples.unsyncedCache ["B"]) Examples.unsyncedStore)
    (eval (invalidate Examples.unsyncedCache ["B"]) Examples.unsyncedStore) !! "A" =
    Some (AsyncWorkCache.Resolved (ScannedP "first scan")).
Proof. vm_compute. repeat split. Qed.

Lemma getOrCompute_once_per_key_witness :
  AsyncWorkCache.allocatedCache Examples.oneCache 0 ∧
  AsyncWorkCache.keeps 0 "k" Examples.dedupTrace = true ∧
  let w := Examples.oneCache in
  let ops := Examples.dedupTrace in
  let w' := exec (AsyncWorkCache.run ops) w in
  let results := eval (AsyncWorkCache.run ops) w in
  AsyncWorkCache.computeCount w' 0 "k" ≤ S (AsyncWorkCache.computeCount w 0 "k") ∧
  (is_Some (AsyncWorkCache.entriesOf w 0 !! "k") →
   AsyncWorkCache.computeCount w' 0 "k" = AsyncWorkCache.computeCount w 0 "k") ∧
  (∀ p f, AsyncWorkCache.entriesOf w 0 !! "k" = Some p →
          AsyncWorkCache.getOrCompute 0 "k" f w = (p, w)) ∧
  (AsyncWorkCache.keepsEntry 0 "k" ops = true →
   (∀ p, AsyncWorkCache.entriesOf w 0 !! "k" = Some p →
         AsyncWorkCache.entriesOf w' 0 !! "k" = Some p ∧
         ∀ i f, ops !! i = Some (AsyncWorkCache.GetOrCompute 0 "k" f) →
                results !! i = Some (Some p)) ∧
   (∃ p, ∀ i f, ops !! i = Some (AsyncWorkCache.GetOrCompute 0 "k" f) →
                results !! i = Some (Some p))) ∧
  (∀ p o, AsyncWorkCache.outcomeOf w p = Some o →
          AsyncWorkCache.outcomeOf w' p = Some o).
Proof.
  assert (Ha : AsyncWorkCache.allocatedCache Examples.oneCache 0) by (vm_compute; lia).
  assert (Hk : AsyncWorkCache.keeps 0 "k" Examples.dedupTrace = true)
    by (vm_compute; reflexivity).
  split; [exact Ha |]. split; [exact Hk |].
  exact (getOrCompute_once_per_key Examples.oneCache 0 "k" Examples.dedupTrace Ha Hk).
Defined.

(** In a trace without [delete(k)] and [clear()], [set(k, v)] between two
    callers of [getOrCompute(k, _)] hands them different promises. *)
Lemma set_between_callers_changes_entry :
  ¬ (∀ (w : AsyncWorkCache.World string) c k ops i j fi fj pi pj,
       AsyncWorkCache.allocatedCache w c →
       AsyncWorkCache.keeps c k ops = true →
       ops !! i = Some (AsyncWorkCache.GetOrCompute c k fi) →
       ops !! j = Some (AsyncWorkCache.GetOrCompute c k fj) →
       eval (AsyncWorkCache.run ops) w !! i = Some (Some pi) →
       eval (AsyncWorkCache.run ops) w !! j = Some (Some pj) →
       pi = pj ∧
       AsyncWorkCache.outcomeOf (exec (AsyncWorkCache.run ops) w) pi =
       AsyncWorkCache.outcomeOf (exec (AsyncWorkCache.run ops) w) pj).
Proof.
  intros H.
  assert (AsyncWorkCache.allocatedCache Examples.oneCache 0) as Ha by (vm_compute; lia).
  assert (AsyncWorkCache.keeps 0 "k" Examples.setTrace = true) as Hk
    by (vm_compute; reflexivity).
  assert (eval (AsyncWorkCache.run Examples.setTrace) Examples.oneCache !! 0 =
          Some (Some (AsyncWorkCache.Computing 0))) as H0 by (vm_compute; reflexivity).
  assert (eval (AsyncWorkCache.run Examples.setTrace) Examples.oneCache !! 2 =
          Some (Some (AsyncWorkCache.Resolved "v"))) as H2 by (vm_compute; reflexivity).
  destruct (H Examples.oneCache 0 "k" Examples.setTrace 0 2 1 2 _ _ Ha Hk
              eq_refl eq_refl H0 H2) as [Heq _].
  discriminate Heq.
Qed.

Lemma failure_sticky_until_removed_witness :
  AsyncWorkCache.allocatedCache Examples.failedWorld 0 ∧
  AsyncWorkCache.entriesOf Examples.failedWorld 0 !! "k" =
    Some (AsyncWorkCache.Computing 0) ∧
  AsyncWorkCache.outcomeOf Examples.failedWorld (AsyncWorkCache.Computing 0) =
    Some (AsyncWorkCache.Failure "boom") ∧
  AsyncWorkCache.keepsEntry 0 "k" Examples.quietTrace = true ∧
  let w := Examples.failedWorld in
  let p := AsyncWorkCache.Computing 0 in
  let ops := Examples.quietTrace in
  let w1 := exec (AsyncWorkCache.run ops) w in
  (AsyncWorkCache.getOrCompute 0 "k" 4 w1 = (p, w1) ∧
   AsyncWorkCache.outcomeOf w1 p = Some (AsyncWorkCache.Failure "boom") ∧
   AsyncWorkCache.computeCount w1 0 "k" = AsyncWorkCache.computeCount w 0 "k" ∧
   ∀ i f, ops !! i = Some (AsyncWorkCache.GetOrCompute 0 "k" f) →
          eval (AsyncWorkCache.run ops) w !! i = Some (Some p)) ∧
  let w2 := exec (AsyncWorkCache.delete 0 "k") w1 in
  let p' := eval (AsyncWorkCache.getOrCompute 0 "k" 4) w2 in
  let w3 := exec (AsyncWorkCache.getOrCompute 0 "k" 4) w2 in
  p' ≠ p ∧
  AsyncWorkCache.entriesOf w3 0 !! "k" = Some p' ∧
  AsyncWorkCache.outcomeOf w3 p' = None ∧
  AsyncWorkCache.computeCount w3 0 "k" = S (AsyncWorkCache.computeCount w1 0 "k").
Proof.
  assert (Ha : AsyncWorkCache.allocatedCache Examples.failedWorld 0)
    by (vm_compute; lia).
  assert (He : AsyncWorkCache.entriesOf Examples.failedWorld 0 !! "k" =
               Some (AsyncWorkCache.Computing 0)) by (vm_compute; reflexivity).
  assert (Ho : AsyncWorkCache.outcomeOf Examples.failedWorld (AsyncWorkCache.Computing 0) =
               Some (AsyncWorkCache.Failure "boom")) by (vm_compute; reflexivity).
  assert (Hk : AsyncWorkCache.keepsEntry 0 "k" Examples.quietTrace = true)
    by (vm_compute; reflexivity).
  split; [exact Ha |]. split; [exact He |]. split; [exact Ho |]. split; [exact Hk |].
  exact (failure_sticky_until_removed Examples.failedWorld 0 "k"
           (AsyncWorkCache.Computing 0) "boom" Examples.quietTrace 4 Ha He Ho Hk).
Defined.

(** After a failure, [set(k, v)] without any [delete(k)] makes
    [getOrCompute(k, f2)] return the value that was set, not the failure. *)
Lemma set_replaces_failure :
  ¬ (∀ (w : AsyncWorkCache.World string) c k p reason ops f2,
       AsyncWorkCache.allocatedCache w c →
       AsyncWorkCache.entriesOf w c !! k = Some p →
       AsyncWorkCache.outcomeOf w p = Some (AsyncWorkCache.Failure reason) →
       AsyncWorkCache.neverDeletes c k ops = true →
       AsyncWorkCache.outcomeOf (exec (AsyncWorkCache.run ops) w)
         (eval (AsyncWorkCache.getOrCompute c k f2) (exec (AsyncWorkCache.run ops) w)) =
       Some (AsyncWorkCache.Failure reason)).
Proof.
  intros H.
  assert (AsyncWorkCache.allocatedCache Examples.failedWorld 0) as Ha by (vm_compute; lia).
  assert (He : AsyncWorkCache.entriesOf Examples.failedWorld 0 !! "k" =
               Some (AsyncWorkCache.Computing 0)) by (vm_compute; reflexivity).
  assert (Ho : AsyncWorkCache.outcomeOf Examples.failedWorld (AsyncWorkCache.Computing 0) =
               Some (AsyncWorkCache.Failure "boom")) by (vm_compute; reflexivity).
  assert (Hk : AsyncWorkCache.neverDeletes 0 "k" [AsyncWorkCache.Set' 0 "k" "v"] = true)
    by (vm_compute; reflexivity).
  specialize (H Examples.failedWorld 0 "k" _ "boom" [AsyncWorkCache.Set' 0 "k" "v"] 2
                Ha He Ho Hk).
  vm_compute in H. discriminate H.
Qed.
End Witnesses.

Section ReceiverWitness.
Import AnalysisCacheObject.

Lemma invalidate_preserves_receiver_witness :
  allocated ObjectExamples.chainStore ObjectExamples.chainCache ∧
  let this := ObjectExamples.chainCache in
  let h := ObjectExamples.chainStore in
  let newCache := eval (invalidate this ["C"]) h in
  let h' := exec (invalidate this ["C"]) h in
  (parsedCache h' this = parsedCache h this ∧
   scannedCache h' this = scannedCache h this ∧
   dependenciesScannedCache h' this = dependenciesScannedCache h this ∧
   analyzedCache h' this = analyzedCache h this ∧
   publishedScanned h' this = publishedScanned h this ∧
   publishedAnalyzed h' this = publishedAnalyzed h this ∧
   DependencyGraphObject.edgesOf (graphs h') (dependencyGraph this) =
     DependencyGraphObject.edgesOf (graphs h) (dependencyGraph this) ∧
   (∀ id, dependantsOf h' this id = dependantsOf h this id)) ∧
  preserves h h' ∧
  (∀ p, AsyncWorkCache.outcomeOf (AnalysisCache.work (containers h')) p =
        AsyncWorkCache.outcomeOf (AnalysisCache.work (containers h)) p) ∧
  (∀ l, l ∈ cacheLocs newCache →
        JsMap.nextLoc (AsyncWorkCache.maps (AnalysisCache.work (containers h))) ≤ l) ∧
  JsMap.nextLoc (AnalysisCache.scannedStore (containers h)) ≤ scannedDocuments newCache ∧
  JsMap.nextLoc (AnalysisCache.analyzedStore (containers h)) ≤ analyzedDocuments newCache ∧
  DependencyGraphObject.nextLoc (graphs h) ≤ dependencyGraph newCache.
Proof.
  assert (Ha : allocated ObjectExamples.chainStore ObjectExamples.chainCache)
    by (vm_compute; lia).
  split; [exact Ha |].
  exact (invalidate_preserves_receiver ObjectExamples.chainStore ObjectExamples.chainCache
           ["C"] Ha).
Defined.
End ReceiverWitness.

(** ** Further properties of the constructor and of [invalidate] *)
Section SnapshotFacts.
Context {ParsedDocument ScannedDocument Document : Type}.
Import AnalysisCache.
Implicit Types (h : Heap ParsedDocument ScannedDocument Document)
  (this c nc : AnalysisCache.t) (id : string) (paths ids : list string).

Lemma freshIn_allocated h h1 nc : freshIn h h1 nc → allocated h1 nc.
Proof.
  intros (Hp & Hs & Ha & Hd & Hsd & Had & _ & _ & _ & HnW & HnS & HnA).
  unfold allocated. rewrite Hp, Hs, Ha, Hd, Hsd, Had, HnW, HnS, HnA. lia.
Qed.

Lemma freshIn_allocated_old h h1 nc this :
  freshIn h h1 nc → allocated h this → allocated h1 this.
Proof.
  intros (_ & _ & _ & _ & _ & _ & _ & _ & _ & HnW & HnS & HnA).
  unfold allocated. rewrite HnW, HnS, HnA. lia.
Qed.

Lemma preserves_contents h h' c :
  allocated h c → preserves h h' → Snapshot.contents h' c = Snapshot.contents h c.
Proof.
  intros (Hp & Hs & Hd & Ha & Hsd & Had) (HW & HS & HA & _).
  unfold Snapshot.contents, parsedCache, scannedCache, dependenciesScannedCache,
    analyzedCache, publishedScanned, publishedAnalyzed, cacheAt,
    AsyncWorkCache.entriesOf, JsMap.contentsOf.
  by rewrite !HW, HS, HA.
Qed.

Lemma preserves_trans h1 h2 h3 :
  JsMap.nextLoc (AsyncWorkCache.maps (work h1)) ≤ JsMap.nextLoc (AsyncWorkCache.maps (work h2)) →
  JsMap.nextLoc (scannedStore h1) ≤ JsMap.nextLoc (scannedStore h2) →
  JsMap.nextLoc (analyzedStore h1) ≤ JsMap.nextLoc (analyzedStore h2) →
  preserves h1 h2 → preserves h2 h3 → preserves h1 h3.
Proof.
  intros HnW HnS HnA (HW & HS & HA & Hi) (HW' & HS' & HA' & Hi').
  split_and!.
  - intros l Hl. rewrite HW', HW; [done | done | lia].
  - intros l Hl. rewrite HS', HS; [done | done | lia].
  - intros l Hl. rewrite HA', HA; [done | done | lia].
  - congruence.
Qed.

(** The constructor, for any of its argument combinations. *)
Lemma constructor_copy_effect h this (g : option DependencyGraph.t) :
  allocated h this →
  let nc := eval (constructor (Some this) g) h in
  let h1 := exec (constructor (Some this) g) h in
  freshIn h h1 nc ∧ preserves h h1 ∧
  dependencyGraph nc = default DependencyGraph.empty g ∧
  Snapshot.contents h1 nc = Snapshot.contents h this.
Proof.
  intros Halloc nc h1. subst nc h1.
  destruct h as [[[wo wn] inv] [so sn] [ao an]].
  destruct this as [tp ts td ta tsd tad tg].
  unfold allocated in Halloc; cbn in Halloc.
  destruct Halloc as (Hp & Hs & Hd & Ha & Hsd & Had).
  unfold freshIn, preserves, Snapshot.contents, parsedCache, scannedCache,
    dependenciesScannedCache, analyzedCache, publishedScanned, publishedAnalyzed, cacheAt,
    cacheLocs, AsyncWorkCache.entriesOf.
  cbv beta iota zeta delta
    [eval exec constructor mbind mret state_bind state_ret onWork onScanned onAnalyzed
     zoom AsyncWorkCache.new AsyncWorkCache.onMaps JsMap.new JsMap.alloc fmap option_fmap
     option_map work scannedStore analyzedStore AsyncWorkCache.maps
     AsyncWorkCache.invocations JsMap.objects JsMap.nextLoc parsedDocumentPromises
     scannedDocumentPromises dependenciesScannedPromises analyzedDocumentPromises
     scannedDocuments analyzedDocuments dependencyGraph fst snd].
  all: repeat match goal with |- _ ∧ _ => split end; try done.
  all: try (intros l Hl).
  all: try (rewrite !elem_of_cons, elem_of_nil in Hl;
            destruct Hl as [-> | [-> | [-> | [-> | []]]]]).
  all: try match goal with |- Snapshot.mkContents _ _ _ _ _ _ = _ => f_equal end.
  all: repeat (progress (unfold JsMap.contentsOf; cbn [default JsMap.objects];
               repeat first [rewrite lookup_insert_eq | rewrite lookup_insert_ne by lia])).
  all: by eauto.
Qed.

Lemma constructor_new_effect h (g : option DependencyGraph.t) :
  let nc := eval (constructor None g) h in
  let h1 := exec (constructor None g) h in
  freshIn h h1 nc ∧ preserves h h1 ∧
  dependencyGraph nc = default DependencyGraph.empty g ∧
  Snapshot.contents h1 nc = Snapshot.mkContents ∅ ∅ ∅ ∅ ∅ ∅.
Proof.
  intros nc h1. subst nc h1.
  destruct h as [[[wo wn] inv] [so sn] [ao an]].
  unfold freshIn, preserves, Snapshot.contents, parsedCache, scannedCache,
    dependenciesScannedCache, analyzedCache, publishedScanned, publishedAnalyzed, cacheAt,
    cacheLocs, AsyncWorkCache.entriesOf.
  cbv beta iota zeta delta
    [eval exec constructor mbind mret state_bind state_ret onWork onScanned onAnalyzed
     zoom AsyncWorkCache.new AsyncWorkCache.onMaps JsMap.new JsMap.alloc fmap option_fmap
     option_map work scannedStore analyzedStore AsyncWorkCache.maps
     AsyncWorkCache.invocations JsMap.objects JsMap.nextLoc parsedDocumentPromises
     scannedDocumentPromises dependenciesScannedPromises analyzedDocumentPromises
     scannedDocuments analyzedDocuments dependencyGraph fst snd].
  all: repeat match goal with |- _ ∧ _ => split end; try done.
  all: try (intros l Hl).
  all: try (rewrite !elem_of_cons, elem_of_nil in Hl;
            destruct Hl as [-> | [-> | [-> | [-> | []]]]]).
  all: try match goal with |- Snapshot.mkContents _ _ _ _ _ _ = _ => f_equal end.
  all: repeat (progress (unfold JsMap.contentsOf; cbn [default JsMap.objects];
               repeat first [rewrite lookup_insert_eq | rewrite lookup_insert_ne by lia])).
  all: by eauto.
Qed.

Lemma contents_updateCache_other h c l f :
  l ∉ cacheLocs c →
  Snapshot.contents (exec (updateCache l f) h) c = Snapshot.contents h c.
Proof.
  unfold cacheLocs. rewrite !not_elem_of_cons. intros (? & ? & ? & ? & _).
  unfold Snapshot.contents, parsedCache, scannedCache, dependenciesScannedCache,
    analyzedCache.
  rewrite !cacheAt_updateCache, publishedScanned_updateCache, publishedAnalyzed_updateCache.
  by rewrite !decide_False by done.
Qed.

Lemma contents_updateScanned_other h c l f :
  l ≠ scannedDocuments c →
  Snapshot.contents (exec (updateScanned l f) h) c = Snapshot.contents h c.
Proof.
  intros Hl. unfold Snapshot.contents, parsedCache, scannedCache,
    dependenciesScannedCache, analyzedCache.
  rewrite !cacheAt_updateScanned, publishedScanned_updateScanned,
    publishedAnalyzed_updateScanned.
  by rewrite decide_False by done.
Qed.

Lemma contents_updateAnalyzed_other h c l f :
  l ≠ analyzedDocuments c →
  Snapshot.contents (exec (updateAnalyzed l f) h) c = Snapshot.contents h c.
Proof.
  intros Hl. unfold Snapshot.contents, parsedCache, scannedCache,
    dependenciesScannedCache, analyzedCache.
  rewrite !cacheAt_updateAnalyzed, publishedScanned_updateAnalyzed,
    publishedAnalyzed_updateAnalyzed.
  by rewrite decide_False by done.
Qed.

(** X1: the constructor.  Without [from] the six containers of the new
    snapshot are empty; with [from] they hold the entries of [from].  The
    graph is the one passed in, and the empty graph when none is passed,
    whatever the graph of [from] is.  The new snapshot is allocated and no
    object that existed before is changed. *)
Theorem constructor_contents h (from : option AnalysisCache.t)
    (newDependencyGraph : option DependencyGraph.t) :
  match from with Some this => allocated h this | None => True end →
  let c := eval (constructor from newDependencyGraph) h in
  let h1 := exec (constructor from newDependencyGraph) h in
  Snapshot.contents h1 c =
    match from with
    | Some this => Snapshot.contents h this
    | None => Snapshot.mkContents ∅ ∅ ∅ ∅ ∅ ∅
    end ∧
  dependencyGraph c = default DependencyGraph.empty newDependencyGraph ∧
  allocated h1 c ∧ preserves h h1.
Proof.
  intros Halloc c h1. subst c h1. destruct from as [this |].
  - destruct (constructor_copy_effect h this newDependencyGraph Halloc)
      as (Hf & Hp & Hg & Hc).
    split_and!; try done. by eapply freshIn_allocated.
  - destruct (constructor_new_effect h newDependencyGraph) as (Hf & Hp & Hg & Hc).
    split_and!; try done. by eapply freshIn_allocated.
Qed.

(** X2: the copy is independent.  After [new AnalysisCache(this, g)], a write
    to a container of the receiver does not show through the copy, and a
    write to a container of the copy does not show through the receiver. *)
Theorem constructor_independent_copy h this (g : option DependencyGraph.t)
    (write : State (Heap ParsedDocument ScannedDocument Document) unit) :
  allocated h this →
  let c := eval (constructor (Some this) g) h in
  let h1 := exec (constructor (Some this) g) h in
  (Snapshot.writesTo this write →
   Snapshot.contents (exec write h1) c = Snapshot.contents h1 c) ∧
  (Snapshot.writesTo c write →
   Snapshot.contents (exec write h1) this = Snapshot.contents h1 this).
Proof.
  intros Halloc c h1.
  destruct (constructor_copy_effect h this g Halloc) as (Hf & _).
  fold c h1 in Hf.
  pose proof Halloc as (Hp & Hs & Hd & Ha & Hsd & Had).
  destruct Hf as (Hcp & Hcs & Hca & Hcd & Hcsd & Hcad & _).
  split; intros Hw; destruct Hw as [l f Hl | f | f].
  - apply contents_updateCache_other.
    unfold cacheLocs in *. rewrite Hcp, Hcs, Hca, Hcd.
    rewrite !elem_of_cons, elem_of_nil in Hl. rewrite !not_elem_of_cons.
    destruct Hl as [-> | [-> | [-> | [-> | []]]]];
      split_and!; try lia; apply not_elem_of_nil.
  - apply contents_updateScanned_other. lia.
  - apply contents_updateAnalyzed_other. lia.
  - apply contents_updateCache_other.
    unfold cacheLocs in *. rewrite Hcp, Hcs, Hca, Hcd in Hl.
    rewrite !elem_of_cons, elem_of_nil in Hl. rewrite !not_elem_of_cons.
    destruct Hl as [-> | [-> | [-> | [-> | []]]]];
      split_and!; try lia; apply not_elem_of_nil.
  - apply contents_updateScanned_other. lia.
  - apply contents_updateAnalyzed_other. lia.
Qed.

(** X3: every listed path leaves all four work caches and both published
    mappings. *)
Theorem invalidate_removes_paths h this paths id :
  allocated h this → id ∈ paths →
  let newCache := eval (invalidate this paths) h in
  let h' := exec (invalidate this paths) h in
  parsedCache h' newCache !! id = None ∧
  scannedCache h' newCache !! id = None ∧
  dependenciesScannedCache h' newCache !! id = None ∧
  analyzedCache h' newCache !! id = None ∧
  publishedScanned h' newCache !! id = None ∧
  publishedAnalyzed h' newCache !! id = None.
Proof.
  intros Halloc Hid newCache h'.
  destruct (invalidate_effect h this paths Halloc)
    as (_ & Hpc & Hsc & Hdc & Hps & Hpa & Ha & _).
  fold newCache h' in Hpc, Hsc, Hdc, Hps, Hpa, Ha.
  assert (id ∈ staleIds (dependencyGraph this) paths) as Hstale
    by (apply elem_of_staleIds; auto).
  assert (paths ≠ []) as Hne by (intros ->; by apply elem_of_nil in Hid).
  assert (publishedAnalyzed h' newCache !! id = None) as Hnone
    by (by rewrite Hpa, decide_True).
  split_and!.
  - by rewrite Hpc, decide_True.
  - by rewrite Hsc, decide_True.
  - by rewrite Hdc, decide_True.
  - by rewrite (Ha Hne), lookup_fmap, Hnone.
  - by rewrite Hps, decide_True.
  - done.
Qed.

Lemma map_eq_filter_keys {A} (m m' : gmap string A)
    (Q : string * A → Prop) `{∀ x, Decision (Q x)}
    (P : string → Prop) `{∀ k, Decision (P k)} :
  (∀ k x, Q (k, x) ↔ ¬ P k) →
  (∀ k, m' !! k = if decide (P k) then None else m !! k) →
  m' = filter Q m.
Proof.
  intros HQ Hm. apply map_eq; intros k. rewrite Hm.
  destruct (decide (P k)) as [HP | HP].
  - symmetry. apply map_lookup_filter_None. right. intros x _. rewrite HQ. auto.
  - destruct (m !! k) as [x|] eqn:E.
    + symmetry. apply map_lookup_filter_Some. split; [done |]. by apply HQ.
    + symmetry. apply map_lookup_filter_None. by left.
Qed.

(** X4: apart from the analyzed work cache, [invalidate] only removes
    entries.  The parsed and scanned work caches and the published scanned
    documents of the result are those of the receiver without the listed
    paths; the dependencies-scanned work cache and the published analyzed
    documents are those of the receiver without the listed paths and their
    transitive dependants.  Every other entry is kept as it is, and none is
    added. *)
Theorem invalidate_restricts h this paths :
  allocated h this →
  let newCache := eval (invalidate this paths) h in
  let h' := exec (invalidate this paths) h in
  let stale := staleIds (dependencyGraph this) paths in
  parsedCache h' newCache =
    filter (λ kv, kv.1 ∉ paths) (parsedCache h this) ∧
  scannedCache h' newCache =
    filter (λ kv, kv.1 ∉ paths) (scannedCache h this) ∧
  publishedScanned h' newCache =
    filter (λ kv, kv.1 ∉ paths) (publishedScanned h this) ∧
  dependenciesScannedCache h' newCache =
    filter (λ kv, kv.1 ∉ stale) (dependenciesScannedCache h this) ∧
  publishedAnalyzed h' newCache =
    filter (λ kv, kv.1 ∉ stale) (publishedAnalyzed h this).
Proof.
  intros Halloc newCache h' stale.
  destruct (invalidate_effect h this paths Halloc)
    as (_ & Hpc & Hsc & Hdc & Hps & Hpa & _).
  fold newCache h' stale in Hpc, Hsc, Hdc, Hps, Hpa.
  split_and!.
  - by apply (map_eq_filter_keys _ _ _ (λ k, k ∈ paths)).
  - by apply (map_eq_filter_keys _ _ _ (λ k, k ∈ paths)).
  - by apply (map_eq_filter_keys _ _ _ (λ k, k ∈ paths)).
  - by apply (map_eq_filter_keys _ _ _ (λ k, k ∈ stale)).
  - by apply (map_eq_filter_keys _ _ _ (λ k, k ∈ stale)).
Qed.

(** X5: when at least one path is invalidated, the analyzed work cache of the
    result is rebuilt from the published analyzed documents of the receiver:
    an id that is not stale has the resolved promise of its published
    document as its entry, and no entry when nothing is published for it.
    So the analysis of an unrelated document that is still in flight is
    dropped, and an entry is added for a published document that had none. *)
Theorem invalidate_rebuilds_analyzed h this paths id :
  allocated h this → paths ≠ [] →
  id ∉ staleIds (dependencyGraph this) paths →
  let newCache := eval (invalidate this paths) h in
  let h' := exec (invalidate this paths) h in
  analyzedCache h' newCache !! id = resolvedDocument <$> publishedAnalyzed h this !! id ∧
  (publishedAnalyzed h this !! id = None → analyzedCache h' newCache !! id = None) ∧
  (∀ d, publishedAnalyzed h this !! id = Some d →
        analyzedCache h' newCache !! id = Some (resolvedDocument d)).
Proof.
  intros Halloc Hne Hid newCache h'.
  destruct (invalidate_effect h this paths Halloc) as (_ & _ & _ & _ & _ & Hpa & Ha & _).
  fold newCache h' in Hpa, Ha.
  assert (analyzedCache h' newCache !! id =
          resolvedDocument <$> publishedAnalyzed h this !! id) as Heq
    by (by rewrite (Ha Hne), lookup_fmap, Hpa, decide_False).
  split_and!; [done | |].
  - intros Hn. by rewrite Heq, Hn.
  - intros d Hd. by rewrite Heq, Hd.
Qed.

Lemma staleIds_same_elements (g : DependencyGraph.t) paths paths' :
  (∀ k, k ∈ paths ↔ k ∈ paths') → ∀ k, k ∈ staleIds g paths ↔ k ∈ staleIds g paths'.
Proof.
  intros Hsame k. rewrite !elem_of_staleIds. rewrite Hsame.
  apply or_iff_compat_l. split; intros (p & Hp & Hk); exists p; split; try done;
    by apply Hsame.
Qed.

(** X6: the entries of the returned snapshot depend on which paths are
    listed, not on their order nor on repetitions. *)
Theorem invalidate_same_elements h this paths paths' :
  allocated h this → (∀ k, k ∈ paths ↔ k ∈ paths') →
  Snapshot.contents (exec (invalidate this paths) h) (eval (invalidate this paths) h) =
  Snapshot.contents (exec (invalidate this paths') h) (eval (invalidate this paths') h).
Proof.
  intros Halloc Hsame.
  destruct (invalidate_effect h this paths Halloc)
    as (_ & Hpc & Hsc & Hdc & Hps & Hpa & Ha & Hnil & _).
  destruct (invalidate_effect h this paths' Halloc)
    as (_ & Hpc' & Hsc' & Hdc' & Hps' & Hpa' & Ha' & Hnil' & _).
  pose proof (staleIds_same_elements (dependencyGraph this) paths paths' Hsame) as Hstale.
  assert (Hpub : publishedAnalyzed (exec (invalidate this paths) h)
                   (eval (invalidate this paths) h) =
                 publishedAnalyzed (exec (invalidate this paths') h)
                   (eval (invalidate this paths') h)).
  { apply map_eq; intros k. rewrite Hpa, Hpa'.
    destruct (decide (k ∈ staleIds _ paths)) as [Hk | Hk].
    - by rewrite decide_True by by apply Hstale.
    - rewrite decide_False; [done |]. by rewrite <- Hstale. }
  unfold Snapshot.contents. f_equal.
  - apply map_eq; intros k. rewrite Hpc, Hpc'.
    destruct (decide (k ∈ paths)) as [Hk | Hk].
    + by rewrite decide_True by by apply Hsame.
    + rewrite decide_False; [done |]. by rewrite <- Hsame.
  - apply map_eq; intros k. rewrite Hsc, Hsc'.
    destruct (decide (k ∈ paths)) as [Hk | Hk].
    + by rewrite decide_True by by apply Hsame.
    + rewrite decide_False; [done |]. by rewrite <- Hsame.
  - apply map_eq; intros k. rewrite Hdc, Hdc'.
    destruct (decide (k ∈ staleIds _ paths)) as [Hk | Hk].
    + by rewrite decide_True by by apply Hstale.
    + rewrite decide_False; [done |]. by rewrite <- Hstale.
  - destruct paths as [|p paths].
    + destruct paths' as [|p' paths'].
      * done.
      * exfalso. apply (not_elem_of_nil p'), Hsame. by left.
    + assert (paths' ≠ []) as Hne'.
      { intros ->. apply (not_elem_of_nil p), Hsame. by left. }
      rewrite Ha, Ha' by done. by rewrite Hpub.
  - apply map_eq; intros k. rewrite Hps, Hps'.
    destruct (decide (k ∈ paths)) as [Hk | Hk].
    + by rewrite decide_True by by apply Hsame.
    + rewrite decide_False; [done |]. by rewrite <- Hsame.
  - done.
Qed.

(** X7: ids without any entry are accepted.  When neither the listed paths
    nor their dependants have an entry in the receiver, the parsed, scanned
    and dependencies-scanned work caches and both published mappings of the
    result are those of the receiver; the analyzed work cache is still
    rebuilt from the published analyzed documents when the list is not
    empty. *)
Theorem invalidate_unknown_ids h this paths :
  allocated h this →
  (∀ id, id ∈ staleIds (dependencyGraph this) paths →
         parsedCache h this !! id = None ∧ scannedCache h this !! id = None ∧
         dependenciesScannedCache h this !! id = None ∧
         publishedScanned h this !! id = None ∧ publishedAnalyzed h this !! id = None) →
  let newCache := eval (invalidate this paths) h in
  let h' := exec (invalidate this paths) h in
  parsedCache h' newCache = parsedCache h this ∧
  scannedCache h' newCache = scannedCache h this ∧
  dependenciesScannedCache h' newCache = dependenciesScannedCache h this ∧
  publishedScanned h' newCache = publishedScanned h this ∧
  publishedAnalyzed h' newCache = publishedAnalyzed h this ∧
  (paths ≠ [] → analyzedCache h' newCache = resolvedDocument <$> publishedAnalyzed h this).
Proof.
  intros Halloc Hunknown newCache h'.
  destruct (invalidate_effect h this paths Halloc)
    as (_ & Hpc & Hsc & Hdc & Hps & Hpa & Ha & _).
  fold newCache h' in Hpc, Hsc, Hdc, Hps, Hpa, Ha.
  assert (∀ k, k ∈ paths → k ∈ staleIds (dependencyGraph this) paths) as Hin
    by (intros k ?; apply elem_of_staleIds; auto).
  assert (publishedAnalyzed h' newCache = publishedAnalyzed h this) as Hpub.
  { apply map_eq; intros k. rewrite Hpa. case_decide as Hk; [| done].
    symmetry. by apply Hunknown. }
  split_and!.
  - apply map_eq; intros k. rewrite Hpc. case_decide as Hk; [| done].
    symmetry. by apply Hunknown, Hin.
  - apply map_eq; intros k. rewrite Hsc. case_decide as Hk; [| done].
    symmetry. by apply Hunknown, Hin.
  - apply map_eq; intros k. rewrite Hdc. case_decide as Hk; [| done].
    symmetry. by apply Hunknown.
  - apply map_eq; intros k. rewrite Hps. case_decide as Hk; [| done].
    symmetry. by apply Hunknown, Hin.
  - done.
  - intros Hne. by rewrite (Ha Hne), Hpub.
Qed.

(** X8: [invalidate] keeps the published mappings in line with the work
    caches.  If the scanned work cache of the receiver agrees with its
    published scanned documents, so does that of the result, and the same
    holds for the analyzed stage; when the list is not empty the analyzed
    stage of the result agrees whatever the receiver held. *)
Theorem invalidate_preserves_agreement h this paths :
  allocated h this →
  let newCache := eval (invalidate this paths) h in
  let h' := exec (invalidate this paths) h in
  (Snapshot.scannedAgree h this → Snapshot.scannedAgree h' newCache) ∧
  (Snapshot.analyzedAgree h this → Snapshot.analyzedAgree h' newCache) ∧
  (paths ≠ [] → Snapshot.analyzedAgree h' newCache).
Proof.
  intros Halloc newCache h'.
  destruct (invalidate_effect h this paths Halloc)
    as (_ & _ & Hsc & _ & Hps & Hpa & Ha & Hnil & _).
  fold newCache h' in Hsc, Hps, Hpa, Ha, Hnil.
  assert (paths ≠ [] → Snapshot.analyzedAgree h' newCache) as Hne.
  { intros Hne id d p Hd Hp. rewrite (Ha Hne), lookup_fmap, Hd in Hp.
    cbn in Hp. by simplify_eq. }
  split_and!; [| | done].
  - intros Hagree id d p. rewrite Hps, Hsc.
    case_decide; [done |]. apply Hagree.
  - intros Hagree. destruct paths as [|p0 paths]; [| by apply Hne].
    intros id d p. rewrite Hpa, (Hnil eq_refl).
    rewrite decide_False; [apply Hagree |].
    intros [Hin | (? & Hin & _)]%elem_of_staleIds; by apply elem_of_nil in Hin.
Qed.

Lemma invalidate_step h this paths :
  allocated h this →
  let newCache := eval (invalidate this paths) h in
  let h' := exec (invalidate this paths) h in
  preserves h h' ∧ allocated h' newCache ∧
  JsMap.nextLoc (AsyncWorkCache.maps (work h)) ≤ JsMap.nextLoc (AsyncWorkCache.maps (work h')) ∧
  JsMap.nextLoc (scannedStore h) ≤ JsMap.nextLoc (scannedStore h') ∧
  JsMap.nextLoc (analyzedStore h) ≤ JsMap.nextLoc (analyzedStore h').
Proof.
  intros Halloc newCache h'.
  destruct (invalidate_effect h this paths Halloc)
    as (_ & _ & _ & _ & _ & _ & _ & _ & Hpres & Hfresh).
  fold newCache h' in Hpres, Hfresh.
  split_and!; [done | by eapply freshIn_allocated | | |].
  all: destruct Hfresh as (_ & _ & _ & _ & _ & _ & _ & _ & _ & HnW & HnS & HnA); lia.
Qed.

Lemma invalidateAll_cons c paths (batches : list (list string)) h :
  eval (Snapshot.invalidateAll c (paths :: batches)) h =
    eval (Snapshot.invalidateAll (eval (invalidate c paths) h) batches)
      (exec (invalidate c paths) h) ∧
  exec (Snapshot.invalidateAll c (paths :: batches)) h =
    exec (Snapshot.invalidateAll (eval (invalidate c paths) h) batches)
      (exec (invalidate c paths) h).
Proof. cbn [Snapshot.invalidateAll]. by rewrite eval_bind, exec_bind. Qed.

Lemma invalidateAll_steps (batches : list (list string)) : ∀ h c,
  allocated h c →
  let c' := eval (Snapshot.invalidateAll c batches) h in
  let h' := exec (Snapshot.invalidateAll c batches) h in
  preserves h h' ∧ allocated h' c' ∧
  JsMap.nextLoc (AsyncWorkCache.maps (work h)) ≤ JsMap.nextLoc (AsyncWorkCache.maps (work h')) ∧
  JsMap.nextLoc (scannedStore h) ≤ JsMap.nextLoc (scannedStore h') ∧
  JsMap.nextLoc (analyzedStore h) ≤ JsMap.nextLoc (analyzedStore h').
Proof.
  induction batches as [|paths batches IH]; intros h c Halloc.
  - cbn. split_and!; try done.
  - cbn zeta. destruct (invalidateAll_cons c paths batches h) as [-> ->].
    destruct (invalidate_step h c paths Halloc) as (Hp1 & Ha1 & HW1 & HS1 & HA1).
    destruct (IH _ _ Ha1) as (Hp & Ha & HW & HS & HA).
    split_and!; [by eapply preserves_trans | done | lia..].
Qed.

(** X9: snapshots form a history.  However many batches of paths are
    invalidated one after the other, each on the snapshot the previous call
    returned, the first snapshot keeps all its entries, no object that
    existed at the start is changed, and the last snapshot is allocated, so
    that it can be invalidated in turn. *)
Theorem invalidateAll_keeps_history h c (batches : list (list string)) :
  allocated h c →
  let c' := eval (Snapshot.invalidateAll c batches) h in
  let h' := exec (Snapshot.invalidateAll c batches) h in
  Snapshot.contents h' c = Snapshot.contents h c ∧
  preserves h h' ∧ allocated h' c'.
Proof.
  intros Halloc c' h'.
  destruct (invalidateAll_steps batches h c Halloc) as (Hp & Ha & _).
  fold c' h' in Hp, Ha. split_and!; try done. by apply preserves_contents.
Qed.

(** X10: invalidating the same paths again changes nothing more.  When no
    listed path has a dependant left in the graph of the snapshot that
    [invalidate(paths)] returned, a second [invalidate(paths)] on that
    snapshot returns a snapshot with the same entries. *)
Theorem invalidate_twice h this paths :
  allocated h this →
  let c1 := eval (invalidate this paths) h in
  let h1 := exec (invalidate this paths) h in
  (∀ p, p ∈ paths → DependencyGraph.getAllDependantsOf (dependencyGraph c1) p = ∅) →
  Snapshot.contents (exec (invalidate c1 paths) h1) (eval (invalidate c1 paths) h1) =
  Snapshot.contents h1 c1.
Proof.
  intros Halloc c1 h1 Hnodep.
  destruct (invalidate_step h this paths Halloc) as (_ & Halloc1 & _).
  fold c1 h1 in Halloc1.
  destruct (invalidate_effect h this paths Halloc)
    as (_ & Hpc & Hsc & Hdc & Hps & Hpa & Ha & _).
  fold c1 h1 in Hpc, Hsc, Hdc, Hps, Hpa, Ha.
  destruct (invalidate_effect h1 c1 paths Halloc1)
    as (_ & Hpc' & Hsc' & Hdc' & Hps' & Hpa' & Ha' & Hnil' & _).
  assert (∀ id, id ∈ staleIds (dependencyGraph c1) paths → id ∈ paths) as Hstale.
  { intros id [Hin | (p & Hp & Hid)]%elem_of_staleIds; [done |].
    rewrite (Hnodep p Hp) in Hid. by apply not_elem_of_empty in Hid. }
  assert (∀ id, id ∈ paths → id ∈ staleIds (dependencyGraph this) paths) as Hin
    by (intros id ?; apply elem_of_staleIds; auto).
  assert (publishedAnalyzed (exec (invalidate c1 paths) h1) (eval (invalidate c1 paths) h1) =
          publishedAnalyzed h1 c1) as Hpub.
  { apply map_eq; intros k. rewrite Hpa'. case_decide as Hk; [| done].
    by rewrite Hpa, decide_True by auto. }
  unfold Snapshot.contents. f_equal.
  - apply map_eq; intros k. rewrite Hpc'. case_decide as Hk; [| done].
    by rewrite Hpc, decide_True.
  - apply map_eq; intros k. rewrite Hsc'. case_decide as Hk; [| done].
    by rewrite Hsc, decide_True.
  - apply map_eq; intros k. rewrite Hdc'. case_decide as Hk; [| done].
    by rewrite Hdc, decide_True by auto.
  - destruct paths as [|p0 paths]; [by apply Hnil' |].
    rewrite Ha', Hpub by done. symmetry. by apply Ha.
  - apply map_eq; intros k. rewrite Hps'. case_decide as Hk; [| done].
    by rewrite Hps, decide_True.
  - done.
Qed.
End SnapshotFacts.

(** ** The further properties at work on the examples *)
Section SnapshotWitnesses.
Import AnalysisCache.

Lemma constructor_contents_witness :
  match Some Examples.chainCache with
  | Some this => allocated Examples.chainStore this
  | None => True
  end ∧
  let c := eval (constructor (Some Examples.chainCache) None) Examples.chainStore in
  let h1 := exec (constructor (Some Examples.chainCache) None) Examples.chainStore in
  Snapshot.contents h1 c =
    match Some Examples.chainCache with
    | Some this => Snapshot.contents Examples.chainStore this
    | None => Snapshot.mkContents ∅ ∅ ∅ ∅ ∅ ∅
    end ∧
  dependencyGraph c = default DependencyGraph.empty None ∧
  allocated h1 c ∧ preserves Examples.chainStore h1.
Proof.
  assert (Ha : match Some Examples.chainCache with
               | Some this => allocated Examples.chainStore this
               | None => True
               end) by (vm_compute; lia).
  split; [exact Ha |].
  exact (constructor_contents Examples.chainStore (Some Examples.chainCache) None Ha).
Defined.

Lemma constructor_independent_copy_witness :
  allocated Examples.chainStore Examples.chainCache ∧
  let this := Examples.chainCache in
  let write := updateCache (parsedDocumentPromises Examples.chainCache) (λ _, ∅) in
  let c := eval (constructor (Some this) None) Examples.chainStore in
  let h1 := exec (constructor (Some this) None) Examples.chainStore in
  (Snapshot.writesTo this write →
   Snapshot.contents (exec write h1) c = Snapshot.contents h1 c) ∧
  (Snapshot.writesTo c write →
   Snapshot.contents (exec write h1) this = Snapshot.contents h1 this).
Proof.
  assert (Ha : allocated Examples.chainStore Examples.chainCache) by (vm_compute; lia).
  split; [exact Ha |].
  exact (constructor_independent_copy Examples.chainStore Examples.chainCache None
           (updateCache (parsedDocumentPromises Examples.chainCache) (λ _, ∅)) Ha).
Defined.

Lemma invalidate_removes_paths_witness :
  allocated Examples.chainStore Examples.chainCache ∧ "C" ∈ ["C"] ∧
  let newCache := eval (invalidate Examples.chainCache ["C"]) Examples.chainStore in
  let h' := exec (invalidate Examples.chainCache ["C"]) Examples.chainStore in
  parsedCache h' newCache !! "C" = None ∧
  scannedCache h' newCache !! "C" = None ∧
  dependenciesScannedCache h' newCache !! "C" = None ∧
  analyzedCache h' newCache !! "C" = None ∧
  publishedScanned h' newCache !! "C" = None ∧
  publishedAnalyzed h' newCache !! "C" = None.
Proof.
  assert (Ha : allocated Examples.chainStore Examples.chainCache) by (vm_compute; lia).
  assert (Hp : "C" ∈ ["C"]) by left.
  split; [exact Ha |]. split; [exact Hp |].
  exact (invalidate_removes_paths Examples.chainStore Examples.chainCache ["C"] "C" Ha Hp).
Defined.

Lemma invalidate_restricts_witness :
  allocated Examples.chainStore Examples.chainCache ∧
  let this := Examples.chainCache in
  let h := Examples.chainStore in
  let newCache := eval (invalidate this ["B"]) h in
  let h' := exec (invalidate this ["B"]) h in
  let stale := staleIds (dependencyGraph this) ["B"] in
  parsedCache h' newCache = filter (λ kv, kv.1 ∉ ["B"]) (parsedCache h this) ∧
  scannedCache h' newCache = filter (λ kv, kv.1 ∉ ["B"]) (scannedCache h this) ∧
  publishedScanned h' newCache = filter (λ kv, kv.1 ∉ ["B"]) (publishedScanned h this) ∧
  dependenciesScannedCache h' newCache =
    filter (λ kv, kv.1 ∉ stale) (dependenciesScannedCache h this) ∧
  publishedAnalyzed h' newCache = filter (λ kv, kv.1 ∉ stale) (publishedAnalyzed h this).
Proof.
  assert (Ha : allocated Examples.chainStore Examples.chainCache) by (vm_compute; lia).
  split; [exact Ha |].
  exact (invalidate_restricts Examples.chainStore Examples.chainCache ["B"] Ha).
Defined.

Lemma invalidate_rebuilds_analyzed_witness :
  allocated Examples.unsyncedStore Examples.unsyncedCache ∧ ["B"] ≠ [] ∧
  ("A" ∉ staleIds (dependencyGraph Examples.unsyncedCache) ["B"]) ∧
  let this := Examples.unsyncedCache in
  let h := Examples.unsyncedStore in
  let newCache := eval (invalidate this ["B"]) h in
  let h' := exec (invalidate this ["B"]) h in
  analyzedCache h' newCache !! "A" = resolvedDocument <$> publishedAnalyzed h this !! "A" ∧
  (publishedAnalyzed h this !! "A" = None → analyzedCache h' newCache !! "A" = None) ∧
  (∀ d, publishedAnalyzed h this !! "A" = Some d →
        analyzedCache h' newCache !! "A" = Some (resolvedDocument d)).
Proof.
  assert (Ha : allocated Examples.unsyncedStore Examples.unsyncedCache)
    by (vm_compute; lia).
  assert (Hne : ["B"] ≠ []) by discriminate.
  assert (Hid : "A" ∉ staleIds (dependencyGraph Examples.unsyncedCache) ["B"])
    by (apply (bool_decide_unpack _); vm_compute; exact I).
  split; [exact Ha |]. split; [exact Hne |]. split; [exact Hid |].
  exact (invalidate_rebuilds_analyzed Examples.unsyncedStore Examples.unsyncedCache
           ["B"] "A" Ha Hne Hid).
Defined.

Lemma invalidate_same_elements_witness :
  allocated Examples.chainStore Examples.chainCache ∧
  (∀ k, k ∈ ["C"; "A"] ↔ k ∈ ["A"; "C"; "A"]) ∧
  Snapshot.contents (exec (invalidate Examples.chainCache ["C"; "A"]) Examples.chainStore)
    (eval (invalidate Examples.chainCache ["C"; "A"]) Examples.chainStore) =
  Snapshot.contents (exec (invalidate Examples.chainCache ["A"; "C"; "A"]) Examples.chainStore)
    (eval (invalidate Examples.chainCache ["A"; "C"; "A"]) Examples.chainStore).
Proof.
  assert (Ha : allocated Examples.chainStore Examples.chainCache) by (vm_compute; lia).
  assert (Hs : ∀ k, k ∈ ["C"; "A"] ↔ k ∈ ["A"; "C"; "A"]).
  { intros k. rewrite !elem_of_cons, elem_of_nil. tauto. }
  split; [exact Ha |]. split; [exact Hs |].
  exact (invalidate_same_elements Examples.chainStore Examples.chainCache
           ["C"; "A"] ["A"; "C"; "A"] Ha Hs).
Defined.

Lemma stale_unknown :
  staleIds (dependencyGraph Examples.chainCache) ["Z"] = {[ "Z" ]}.
Proof. vm_compute. reflexivity. Qed.

Lemma invalidate_unknown_ids_witness :
  allocated Examples.chainStore Examples.chainCache ∧
  let this := Examples.chainCache in
  let h := Examples.chainStore in
  (∀ id, id ∈ staleIds (dependencyGraph this) ["Z"] →
         parsedCache h this !! id = None ∧ scannedCache h this !! id = None ∧
         dependenciesScannedCache h this !! id = None ∧
         publishedScanned h this !! id = None ∧ publishedAnalyzed h this !! id = None) ∧
  let newCache := eval (invalidate this ["Z"]) h in
  let h' := exec (invalidate this ["Z"]) h in
  parsedCache h' newCache = parsedCache h this ∧
  scannedCache h' newCache = scannedCache h this ∧
  dependenciesScannedCache h' newCache = dependenciesScannedCache h this ∧
  publishedScanned h' newCache = publishedScanned h this ∧
  publishedAnalyzed h' newCache = publishedAnalyzed h this ∧
  (["Z"] ≠ [] → analyzedCache h' newCache = resolvedDocument <$> publishedAnalyzed h this).
Proof.
  assert (Ha : allocated Examples.chainStore Examples.chainCache) by (vm_compute; lia).
  assert (Hu : ∀ id, id ∈ staleIds (dependencyGraph Examples.chainCache) ["Z"] →
            parsedCache Examples.chainStore Examples.chainCache !! id = None ∧
            scannedCache Examples.chainStore Examples.chainCache !! id = None ∧
            dependenciesScannedCache Examples.chainStore Examples.chainCache !! id = None ∧
            publishedScanned Examples.chainStore Examples.chainCache !! id = None ∧
            publishedAnalyzed Examples.chainStore Examples.chainCache !! id = None).
  { intros id. rewrite stale_unknown. intros ->%elem_of_singleton.
    vm_compute. repeat split. }
  split; [exact Ha |]. split; [exact Hu |].
  exact (invalidate_unknown_ids Examples.chainStore Examples.chainCache ["Z"] Ha Hu).
Defined.

Lemma invalidate_preserves_agreement_witness :
  allocated Examples.chainStore Examples.chainCache ∧
  let this := Examples.chainCache in
  let h := Examples.chainStore in
  let newCache := eval (invalidate this ["C"]) h in
  let h' := exec (invalidate this ["C"]) h in
  (Snapshot.scannedAgree h this → Snapshot.scannedAgree h' newCache) ∧
  (Snapshot.analyzedAgree h this → Snapshot.analyzedAgree h' newCache) ∧
  (["C"] ≠ [] → Snapshot.analyzedAgree h' newCache).
Proof.
  assert (Ha : allocated Examples.chainStore Examples.chainCache) by (vm_compute; lia).
  split; [exact Ha |].
  exact (invalidate_preserves_agreement Examples.chainStore Examples.chainCache ["C"] Ha).
Defined.

Lemma invalidateAll_keeps_history_witness :
  allocated Examples.chainStore Examples.chainCache ∧
  let c := Examples.chainCache in
  let h := Examples.chainStore in
  let c' := eval (Snapshot.invalidateAll c [["C"]; ["A"]; []]) h in
  let h' := exec (Snapshot.invalidateAll c [["C"]; ["A"]; []]) h in
  Snapshot.contents h' c = Snapshot.contents h c ∧
  preserves h h' ∧ allocated h' c'.
Proof.
  assert (Ha : allocated Examples.chainStore Examples.chainCache) by (vm_compute; lia).
  split; [exact Ha |].
  exact (invalidateAll_keeps_history Examples.chainStore Examples.chainCache
           [["C"]; ["A"]; []] Ha).
Defined.

Lemma invalidate_twice_witness :
  allocated Examples.chainStore Examples.chainCache ∧
  let this := Examples.chainCache in
  let h := Examples.chainStore in
  let c1 := eval (invalidate this ["C"]) h in
  let h1 := exec (invalidate this ["C"]) h in
  (∀ p, p ∈ ["C"] → DependencyGraph.getAllDependantsOf (dependencyGraph c1) p = ∅) ∧
  Snapshot.contents (exec (invalidate c1 ["C"]) h1) (eval (invalidate c1 ["C"]) h1) =
  Snapshot.contents h1 c1.
Proof.
  assert (Ha : allocated Examples.chainStore Examples.chainCache) by (vm_compute; lia).
  assert (Hn : ∀ p, p ∈ ["C"] →
            DependencyGraph.getAllDependantsOf
              (dependencyGraph (eval (invalidate Examples.chainCache ["C"])
                                  Examples.chainStore)) p = ∅).
  { intros p ->%list_elem_of_singleton. vm_compute. reflexivity. }
  split; [exact Ha |]. split; [exact Hn |].
  exact (invalidate_twice Examples.chainStore Examples.chainCache ["C"] Ha Hn).
Defined.
End SnapshotWitnesses.
